(** * Pdf-Image-Adder: the merge orchestrator, the React component [App]

    A shallow embedding of the component: its four state
    cells ([pdfFile], [images], [loading], [error]), the two drop
    handlers, the remove button, the [useEffect] cleanup and the async
    function [handleMergePdf].

    The component talks to three things it does not own: the browser
    (object URLs, the DOM anchor used to save the result, the console),
    React (state setters, effect cleanups) and pdf-lib (parse, embed,
    add page, draw, serialise).  Those are modelled by what they are
    documented to do; what they may decide on their own (whether bytes
    parse, what size an image has, whether a save succeeds) is left to
    the two interfaces [PdfLib] and [Browser].

    JavaScript numbers are IEEE 754 binary64 values: they are Rocq's
    primitive floats here, with the same rounding. *)

From Stdlib Require Import Floats.PrimFloat Init.Byte.
From stdpp Require Import gmap strings list.

Set Default Proof Using "Type".

(** ** Files, blobs and object URLs *)

(** A [File] as the handlers see it: [name], the declared media type
    [type], and what [arrayBuffer()] resolves to ([None] when the
    promise rejects, e.g. the file vanished from disk). *)
Record File := mkFile {
  name : string;
  type : string;
  contents : option (list byte)
}.

(** [new Blob([bytes], { type })], or a [File] used as a blob. *)
Inductive Blob :=
| FileBlob (f : File)
| BytesBlob (parts : list byte) (mime : string).

(** A [blob:] URL, identified by its serial number. *)
Abbreviation ObjectURL := nat (only parsing).

(** [interface ImageFile extends File { preview: string }] *)
Record ImageFile := mkImageFile {
  file : File;
  preview : ObjectURL
}.

(** ** The pdf-lib document model *)

Inductive ImageKind := Jpg | Png.

Record PDFImage := mkImage {
  kind : ImageKind;
  width : float;
  height : float
}.

(** What a content stream holds: drawings made through [drawImage], and
    whatever a loaded page already contained. *)
Inductive Operator :=
| DrawImage (image : PDFImage) (x y w h : float)
| Existing (raw : list byte).

Record PDFPage := mkPage {
  size : float * float;
  content : list Operator
}.

Record PDFDocument := mkDoc {
  pages : list PDFPage;
  resources : list PDFImage
}.

(** The choices pdf-lib makes: whether bytes parse, the natural size it
    decodes from image bytes ([None]: the embed call throws), whether
    serialising succeeds, and the size [addPage()] gives a page when it
    is called without arguments. *)
Class PdfLib := {
  load_result : list byte → option PDFDocument;
  jpg_result : list byte → option (float * float);
  png_result : list byte → option (float * float);
  save_result : PDFDocument → option (list byte);
  default_page_size : float * float
}.

(** What the browser does with a click on the download anchor. *)
Inductive ClickOutcome := Saved | Dismissed | Raised.

Class Browser := {
  click_result : string → Blob → ClickOutcome
}.

(** ** Effects

    A handler is run from its first statement to its last: what the user
    does while an [await] of [handleMergePdf] is pending is not
    interleaved with it. *)

Inductive Exn :=
| NotReadableError (f : File)
| ParseError
| EmbedError (k : ImageKind)
| SaveError
| DOMException.

Inductive Event :=
| EvSetPdfFile (f : File)
| EvSetImages (l : list ImageFile)
| EvSetLoading (b : bool)
| EvSetError (e : option string)
| EvArrayBuffer (f : File)
| EvLoad (b : list byte)
| EvEmbedJpg (b : list byte)
| EvEmbedPng (b : list byte)
| EvAddPage
| EvDrawImage (op : Operator)
| EvSave (d : PDFDocument)
| EvCreateObjectURL (u : ObjectURL) (b : Blob)
| EvRevokeObjectURL (u : ObjectURL)
| EvAppendChild
| EvClick (href : ObjectURL) (download : string)
| EvRemoveChild
| EvConsoleError (e : Exn).

(** The component's [useState] cells. *)
Record AppState := mkApp {
  pdfFile : option File;
  images : list ImageFile;
  loading : bool;
  error : option string
}.

(** Everything a handler can read or change.
    - [store]: the browser's blob URL store (live object URLs);
    - [next_url]: serial number of the next object URL;
    - [effect_images]: the [images] array captured by the cleanup
      closure of the effect that is currently mounted;
    - [stale]: [images] was replaced by a new array since that effect
      ran (its dependency [[images]] no longer compares equal);
    - [downloads]: files the browser saved for the user;
    - [trace]: every call made, oldest first. *)
Record World := mkWorld {
  state : AppState;
  store : gmap nat Blob;
  next_url : nat;
  effect_images : list ImageFile;
  stale : bool;
  downloads : list (string * Blob);
  trace : list Event
}.

Definition with_state (f : AppState → AppState) (w : World) : World :=
  mkWorld (f (state w)) (store w) (next_url w) (effect_images w) (stale w)
          (downloads w) (trace w).

Definition with_trace (f : list Event → list Event) (w : World) : World :=
  mkWorld (state w) (store w) (next_url w) (effect_images w) (stale w)
          (downloads w) (f (trace w)).

Definition with_store (f : gmap nat Blob → gmap nat Blob) (w : World) : World :=
  mkWorld (state w) (f (store w)) (next_url w) (effect_images w) (stale w)
          (downloads w) (trace w).

(** A computation either returns or throws, and changes the world. *)
Inductive Res (A : Type) :=
| Ok (a : A)
| Throw (e : Exn).
Arguments Ok {A} a.
Arguments Throw {A} e.

Definition M (A : Type) : Type := World → Res A * World.

Definition ret {A} (a : A) : M A := λ w, (Ok a, w).

Definition throw {A} (e : Exn) : M A := λ w, (Throw e, w).

Definition bind {A B} (m : M A) (k : A → M B) : M B :=
  λ w, match m w with
       | (Ok a, w') => k a w'
       | (Throw e, w') => (Throw e, w')
       end.

#[export] Instance M_ret : MRet M := @ret.
#[export] Instance M_bind : MBind M := λ A B k m, bind m k.

(** [try { body } catch (err) { handler } finally { fin }] *)
Definition try_catch_finally (body : M unit) (handler : Exn → M unit)
    (fin : M unit) : M unit :=
  λ w,
    let '(r, w1) :=
      match body w with
      | (Ok tt, w') => (Ok tt, w')
      | (Throw e, w') => handler e w'
      end in
    match fin w1 with
    | (Ok tt, w2) => (r, w2)
    | (Throw e, w2) => (Throw e, w2)
    end.

Definition emit (e : Event) : M unit :=
  λ w, (Ok tt, with_trace (λ t, t ++ [e]) w).

Definition get {A} (f : World → A) : M A := λ w, (Ok (f w), w).

Definition modify (f : World → World) : M unit := λ w, (Ok tt, f w).

(** [for (const x of xs) { acc = body(acc, x) }], stopping at the first
    throw. *)
Fixpoint for_of {A S} (xs : list A) (acc : S) (body : S → A → M S) : M S :=
  match xs with
  | [] => ret acc
  | x :: xs' => acc' ← body acc x; for_of xs' acc' body
  end.

(** [xs.forEach(f)] *)
Fixpoint forEach {A} (xs : list A) (f : A → M unit) : M unit :=
  match xs with
  | [] => ret tt
  | x :: xs' => f x;; forEach xs' f
  end.

(** [xs.map(f)] for an effectful [f], left to right. *)
Fixpoint mapM {A B} (f : A → M B) (xs : list A) : M (list B) :=
  match xs with
  | [] => ret []
  | x :: xs' => y ← f x; ys ← mapM f xs'; ret (y :: ys)
  end.

(** ** The component *)

Section component.
Context `{PdfLib} `{Browser}.

(** *** React: state setters *)

Definition setPdfFile (f : File) : M unit :=
  emit (EvSetPdfFile f);;
  modify (with_state (λ a, mkApp (Some f) (images a) (loading a) (error a))).

(** [setImages] always receives a freshly built array here (a spread or
    a [filter]), so the dependency [[images]] of the effect changes with
    every call, whatever the array holds. *)
Definition setImages (update : list ImageFile → list ImageFile) : M unit :=
  prev ← get (λ w, images (state w));
  emit (EvSetImages (update prev));;
  modify (λ w, mkWorld
    (mkApp (pdfFile (state w)) (update prev) (loading (state w)) (error (state w)))
    (store w) (next_url w) (effect_images w) true (downloads w) (trace w)).

Definition setLoading (b : bool) : M unit :=
  emit (EvSetLoading b);;
  modify (with_state (λ a, mkApp (pdfFile a) (images a) b (error a))).

Definition setError (e : option string) : M unit :=
  emit (EvSetError e);;
  modify (with_state (λ a, mkApp (pdfFile a) (images a) (loading a) e)).

(** *** Browser *)

Definition createObjectURL (b : Blob) : M ObjectURL :=
  u ← get next_url;
  emit (EvCreateObjectURL u b);;
  modify (λ w, mkWorld (state w) (<[u := b]> (store w)) (S u) (effect_images w)
                       (stale w) (downloads w) (trace w));;
  ret u.

(** Revoking a URL that is not in the store does nothing. *)
Definition revokeObjectURL (u : ObjectURL) : M unit :=
  emit (EvRevokeObjectURL u);;
  modify (with_store (delete u)).

Definition arrayBuffer (f : File) : M (list byte) :=
  emit (EvArrayBuffer f);;
  match contents f with
  | Some b => ret b
  | None => throw (NotReadableError f)
  end.

Definition console_error (e : Exn) : M unit := emit (EvConsoleError e).

(** [document.body.appendChild(link)] and [removeChild(link)] *)
Definition appendChild : M unit := emit EvAppendChild.
Definition removeChild : M unit := emit EvRemoveChild.

(** [link.click()] on an anchor with the given [href] and [download]
    attributes: the browser looks the URL up in its store and, if it is
    live, may save the blob under the given name. *)
Definition click (href : ObjectURL) (download : string) : M unit :=
  emit (EvClick href download);;
  st ← get store;
  match st !! href with
  | None => ret tt
  | Some blob =>
      match click_result download blob with
      | Saved =>
          modify (λ w, mkWorld (state w) (store w) (next_url w) (effect_images w)
                               (stale w) (downloads w ++ [(download, blob)])
                               (trace w))
      | Dismissed => ret tt
      | Raised => throw DOMException
      end
  end.

(** *** pdf-lib *)

Definition PDFDocument_load (b : list byte) : M PDFDocument :=
  emit (EvLoad b);;
  match load_result b with
  | Some doc => ret doc
  | None => throw ParseError
  end.

Definition embed (k : ImageKind) (dims : option (float * float))
    (pdfDoc : PDFDocument) : M (PDFImage * PDFDocument) :=
  match dims with
  | Some (w, h) =>
      let image := mkImage k w h in
      ret (image, mkDoc (pages pdfDoc) (resources pdfDoc ++ [image]))
  | None => throw (EmbedError k)
  end.

Definition embedJpg (pdfDoc : PDFDocument) (b : list byte)
    : M (PDFImage * PDFDocument) :=
  emit (EvEmbedJpg b);; embed Jpg (jpg_result b) pdfDoc.

Definition embedPng (pdfDoc : PDFDocument) (b : list byte)
    : M (PDFImage * PDFDocument) :=
  emit (EvEmbedPng b);; embed Png (png_result b) pdfDoc.

(** [pdfDoc.addPage()] without arguments: a blank page of the default
    size is appended.  The page object returned is the one now in the
    document; it is referred to by its index. *)
Definition addPage (pdfDoc : PDFDocument) : M (nat * PDFPage * PDFDocument) :=
  let page := mkPage default_page_size [] in
  emit EvAddPage;;
  ret (length (pages pdfDoc), page,
       mkDoc (pages pdfDoc ++ [page]) (resources pdfDoc)).

Definition getSize (page : PDFPage) : float * float := size page.

(** [image.scale(factor)] *)
Definition scale (image : PDFImage) (factor : float) : float * float :=
  (PrimFloat.mul (width image) factor, PrimFloat.mul (height image) factor).

(** [page.drawImage(image, { x, y, width, height })] on the page with
    index [ref] of [pdfDoc]. *)
Definition drawImage (pdfDoc : PDFDocument) (ref : nat) (image : PDFImage)
    (x y w h : float) : M PDFDocument :=
  let op := DrawImage image x y w h in
  emit (EvDrawImage op);;
  ret (mkDoc (alter (λ p, mkPage (size p) (content p ++ [op])) ref (pages pdfDoc))
             (resources pdfDoc)).

Definition save (pdfDoc : PDFDocument) : M (list byte) :=
  emit (EvSave pdfDoc);;
  match save_result pdfDoc with
  | Some b => ret b
  | None => throw SaveError
  end.

(** *** Messages *)

Definition INVALID_PDF : string := "Please upload a valid PDF file".
Definition MISSING_INPUT : string :=
  "Please upload both a PDF and at least one image".
Definition PROCESSING_ERROR : string := "Error processing PDF. Please try again.".

(** The literal [0.8]: the binary64 value nearest to 4/5. *)
Definition SCALE : float := 0x1.999999999999ap-1%float.

(** *** Handlers *)

(** [onPdfDrop] *)
Definition onPdfDrop (acceptedFiles : list File) : M unit :=
  match acceptedFiles !! 0 with
  | Some first =>
      if (0 <? length acceptedFiles) && String.eqb (type first) "application/pdf"
      then setPdfFile first;; setError None
      else setError (Some INVALID_PDF)
  | None => setError (Some INVALID_PDF)
  end.

(** [file => file.type.startsWith('image/')] *)
Definition isImage (f : File) : bool := String.prefix "image/" (type f).

(** [file => Object.assign(file, { preview: URL.createObjectURL(file) })]

    [Object.assign] writes [preview] into the [File] object it is given
    and returns that object. Here a [File] is a value and the entry is a
    new pair, which is the same thing as long as no [File] object is
    handed over twice: if one is, the source overwrites the preview of
    every entry that holds it, and this model does not. The theorems
    that depend on it say so ([image_files]). *)
Definition withPreview (f : File) : M ImageFile :=
  url ← createObjectURL (FileBlob f);
  ret (mkImageFile f url).

(** [onImagesDrop] *)
Definition onImagesDrop (acceptedFiles : list File) : M unit :=
  imageFiles ← mapM withPreview (List.filter isImage acceptedFiles);
  setImages (λ prevImages, prevImages ++ imageFiles);;
  setError None.

(** [xs.filter((_, i) => p(i))] *)
Fixpoint filter_index {A} (p : nat → bool) (i : nat) (xs : list A) : list A :=
  match xs with
  | [] => []
  | x :: xs' =>
      if p i then x :: filter_index p (S i) xs' else filter_index p (S i) xs'
  end.

(** The remove button of the preview with the given index:
    [setImages(images.filter((_, i) => i !== index))]. *)
Definition onRemoveClick (index : nat) : M unit :=
  imgs ← get (λ w, images (state w));
  setImages (λ _, filter_index (λ i, negb (i =? index)) 0 imgs).

(** One iteration of [for (const imageFile of images)]. *)
Definition mergeImage (pdfDoc : PDFDocument) (imageFile : ImageFile)
    : M PDFDocument :=
  imageBytes ← arrayBuffer (file imageFile);
  embedded ←
    (if String.eqb (type (file imageFile)) "image/jpeg" then
       r ← embedJpg pdfDoc imageBytes; ret (Some r)
     else if String.eqb (type (file imageFile)) "image/png" then
       r ← embedPng pdfDoc imageBytes; ret (Some r)
     else ret None);
  match embedded with
  | None => ret pdfDoc
  | Some (image, pdfDoc) =>
      '(page, pageObj, pdfDoc) ← addPage pdfDoc;
      let '(width, height) := getSize pageObj in
      let scaledDims := scale image SCALE in
      drawImage pdfDoc page image
        (PrimFloat.div (PrimFloat.sub width (fst scaledDims)) 2)
        (PrimFloat.div (PrimFloat.sub height (snd scaledDims)) 2)
        (fst scaledDims) (snd scaledDims)
  end.

(** The download step, from [new Blob] to [URL.revokeObjectURL(url)]. *)
Definition triggerDownload (mergedPdfBytes : list byte) : M unit :=
  let blob := BytesBlob mergedPdfBytes "application/pdf" in
  url ← createObjectURL blob;
  appendChild;;
  click url "merged-document.pdf";;
  removeChild;;
  revokeObjectURL url.

(** The body of the [try] block of [handleMergePdf]. *)
Definition mergeBody (pdfFile : File) (images : list ImageFile) : M unit :=
  setLoading true;;
  setError None;;
  pdfBytes ← arrayBuffer pdfFile;
  pdfDoc ← PDFDocument_load pdfBytes;
  pdfDoc ← for_of images pdfDoc mergeImage;
  mergedPdfBytes ← save pdfDoc;
  triggerDownload mergedPdfBytes.

(** [handleMergePdf]; [pdfFile] and [images] are the values of the
    render whose button was clicked. *)
Definition handleMergePdf : M unit :=
  pdfFile ← get (λ w, pdfFile (state w));
  images ← get (λ w, images (state w));
  match pdfFile with
  | Some pdf =>
      if length images =? 0 then setError (Some MISSING_INPUT)
      else
        try_catch_finally
          (mergeBody pdf images)
          (λ err, setError (Some PROCESSING_ERROR);; console_error err)
          (setLoading false)
  | None => setError (Some MISSING_INPUT)
  end.

(** *** React: the effect
    [useEffect(() => () => images.forEach(image =>
       URL.revokeObjectURL(image.preview)), [images])] *)

Definition cleanup (images : list ImageFile) : M unit :=
  forEach images (λ image, revokeObjectURL (preview image)).

(** After a handler has run React renders again; when [images] is a new
    array, the cleanup of the previous effect runs (over the array that
    effect captured) and the effect is set up again with the new one. *)
Definition commit : M unit :=
  get stale ≫= λ changed : bool,
  if changed then
    old ← get effect_images;
    cleanup old;;
    modify (λ w, mkWorld (state w) (store w) (next_url w) (images (state w)) false
                         (downloads w) (trace w))
  else ret tt.

(** Unmounting runs the cleanup of the effect that is mounted. *)
Definition unmount : M unit :=
  old ← get effect_images;
  cleanup old.

(** [disabled={loading || !pdfFile || images.length === 0}] *)
Definition mergeDisabled (a : AppState) : bool :=
  loading a || negb (bool_decide (is_Some (pdfFile a))) || (length (images a) =? 0).

Inductive Action :=
| DropPdf (acceptedFiles : list File)
| DropImages (acceptedFiles : list File)
| ClickRemove (index : nat)
| ClickMerge
| Unmount.

(** What one user action does to the world. *)
Definition act (a : Action) : M unit :=
  match a with
  | DropPdf fs => onPdfDrop fs;; commit
  | DropImages fs => onImagesDrop fs;; commit
  | ClickRemove i => onRemoveClick i;; commit
  | ClickMerge =>
      get (λ w, mergeDisabled (state w)) ≫= λ disabled : bool,
      if disabled then ret tt else handleMergePdf;; commit
  | Unmount => unmount
  end.

Definition run (actions : list Action) : M unit := forEach actions act.

End component.

(** The world of a freshly mounted component. *)
Definition initial : World :=
  mkWorld (mkApp None [] false None) ∅ 0 [] false [] [].

(** ** What the specification says the merge computes

    These definitions follow the words of the specification, not the
    code; the theorems below compare the two. *)

Section specification.
Context `{PdfLib}.

(** "JPEG → embed as a JPEG image resource; PNG → embed as a PNG image
    resource; any other type → skip". *)
Definition dispatch (mediaType : string) : option ImageKind :=
  if decide (mediaType = "image/jpeg") then Some Jpg
  else if decide (mediaType = "image/png") then Some Png
  else None.

Definition decoded (k : ImageKind) (b : list byte) : option (float * float) :=
  match k with
  | Jpg => jpg_result b
  | Png => png_result b
  end.

(** "a uniform scale factor of 0.8 applied to the image's natural
    dimensions" *)
Definition scaled_width (image : PDFImage) : float :=
  PrimFloat.mul (width image) SCALE.
Definition scaled_height (image : PDFImage) : float :=
  PrimFloat.mul (height image) SCALE.

(** "horizontal offset = (page width − scaled width) / 2; vertical
    offset = (page height − scaled height) / 2" *)
Definition centred (page_extent scaled_extent : float) : float :=
  PrimFloat.div (PrimFloat.sub page_extent scaled_extent) 2.

(** The page the specification promises for an embedded image: of the
    default size, holding that one drawing. *)
Definition centred_page (image : PDFImage) : PDFPage :=
  mkPage default_page_size
    [DrawImage image
       (centred (fst default_page_size) (scaled_width image))
       (centred (snd default_page_size) (scaled_height image))
       (scaled_width image) (scaled_height image)].

(** Step 2 for one entry: read, dispatch, embed, append the page. *)
Definition merged_one (doc : PDFDocument) (imageFile : ImageFile)
    : Res PDFDocument :=
  match contents (file imageFile) with
  | None => Throw (NotReadableError (file imageFile))
  | Some b =>
      match dispatch (type (file imageFile)) with
      | None => Ok doc
      | Some k =>
          match decoded k b with
          | None => Throw (EmbedError k)
          | Some (w, h) =>
              let image := mkImage k w h in
              Ok (mkDoc (pages doc ++ [centred_page image])
                        (resources doc ++ [image]))
          end
      end
  end.

(** Step 2 for the whole Working Image Set, in insertion order. *)
Fixpoint merged_all (doc : PDFDocument) (images : list ImageFile)
    : Res PDFDocument :=
  match images with
  | [] => Ok doc
  | imageFile :: rest =>
      match merged_one doc imageFile with
      | Ok doc' => merged_all doc' rest
      | Throw e => Throw e
      end
  end.

(** Steps 1 and 2: the document that is handed to the serialiser. *)
Definition merged_document (pdf : File) (images : list ImageFile)
    : Res PDFDocument :=
  match contents pdf with
  | None => Throw (NotReadableError pdf)
  | Some b =>
      match load_result b with
      | None => Throw ParseError
      | Some doc => merged_all doc images
      end
  end.

(** Steps 1 to 3: the bytes of the finished PDF. *)
Definition merged_bytes (pdf : File) (images : list ImageFile)
    : Res (list byte) :=
  match merged_document pdf images with
  | Throw e => Throw e
  | Ok doc =>
      match save_result doc with
      | None => Throw SaveError
      | Some b => Ok b
      end
  end.

(** An image entry the merge embeds: its bytes are read, its media type
    selects [k], and the library decodes the natural size of [image]. *)
Definition embeds (imageFile : ImageFile) (image : PDFImage) : Prop :=
  ∃ b, contents (file imageFile) = Some b
       ∧ dispatch (type (file imageFile)) = Some (kind image)
       ∧ decoded (kind image) b = Some (width image, height image).

Definition supported (imageFile : ImageFile) : bool :=
  bool_decide (is_Some (dispatch (type (file imageFile)))).

(** The embed call the dispatch selects for an entry whose bytes were
    read: which decoder, on which bytes. *)
Definition expected_call (imageFile : ImageFile)
    : option (ImageKind * list byte) :=
  b ← contents (file imageFile);
  k ← dispatch (type (file imageFile));
  Some (k, b).

End specification.

(** ** Reading a trace *)

(** The world after some more events were recorded, nothing else changed. *)
Definition log (evs : list Event) (w : World) : World :=
  with_trace (λ t, t ++ evs) w.

(** The world once [setLoading(true)] and [setError(null)] have taken
    effect. *)
Definition busy (w : World) : World :=
  with_state (λ a, mkApp (pdfFile a) (images a) true None) w.

(** The events a computation added to the trace. *)
Definition new_events (before after : World) : list Event :=
  drop (length (trace before)) (trace after).

(** The documents handed to [save]. *)
Definition serialised (evs : list Event) : list PDFDocument :=
  omap (λ e, match e with EvSave d => Some d | _ => None end) evs.

(** The embed calls made: [embedJpg] or [embedPng], and on which bytes. *)
Definition embed_calls (evs : list Event) : list (ImageKind * list byte) :=
  omap (λ e, match e with
             | EvEmbedJpg b => Some (Jpg, b)
             | EvEmbedPng b => Some (Png, b)
             | _ => None
             end) evs.

(** The object URLs revoked, one entry per call. *)
Definition revoked (evs : list Event) : list ObjectURL :=
  omap (λ e, match e with EvRevokeObjectURL u => Some u | _ => None end) evs.

(** The object URLs created. *)
Definition created (evs : list Event) : list ObjectURL :=
  omap (λ e, match e with EvCreateObjectURL u _ => Some u | _ => None end) evs.

(** The error messages shown ([setError] with a message). *)
Definition errors_shown (evs : list Event) : list string :=
  omap (λ e, match e with EvSetError (Some msg) => Some msg | _ => None end) evs.

(** The clicks on the download anchor. *)
Definition clicks (evs : list Event) : list (ObjectURL * string) :=
  omap (λ e, match e with EvClick u n => Some (u, n) | _ => None end) evs.

(** Events of steps 1 and 2: reading, parsing, embedding, drawing. *)
Definition preparing (e : Event) : bool :=
  match e with
  | EvArrayBuffer _ | EvLoad _ | EvEmbedJpg _ | EvEmbedPng _
  | EvAddPage | EvDrawImage _ => true
  | _ => false
  end.

(** ** The worlds a merge can end in *)

Section outcomes.
Context `{PdfLib} `{Browser}.

(** What the [try] block logs before any work. *)
Definition START : list Event := [EvSetLoading true; EvSetError None].

(** What the [catch] and [finally] blocks log after a throw. *)
Definition FAIL (e : Exn) : list Event :=
  [EvSetError (Some PROCESSING_ERROR); EvConsoleError e; EvSetLoading false].

(** The download step up to the click, and after it. *)
Definition BEGUN (u : nat) (blob : Blob) : list Event :=
  [EvCreateObjectURL u blob; EvAppendChild; EvClick u "merged-document.pdf"].

Definition ENDED (u : nat) : list Event := [EvRemoveChild; EvRevokeObjectURL u].

(** A world that differs from [w] as a finished merge can make it
    differ: not busy, an error shown or not, the store, the URL counter,
    the downloads and the trace. *)
Definition after_merge (w : World) (err : option string) (st : gmap nat Blob)
    (nx : nat) (dl : list (string * Blob)) (evs : list Event) : World :=
  mkWorld (mkApp (pdfFile (state w)) (images (state w)) false err) st nx
          (effect_images w) (stale w) dl (trace w ++ evs).

(** The world after [handleMergePdf] ran on a PDF and a non-empty image
    set, by cases on where the pipeline stopped; [evs] are the events of
    reading, parsing, embedding and drawing. *)
Definition merge_result (w : World) (pdf : File) (evs : list Event) : World :=
  let u := next_url w in
  match merged_document pdf (images (state w)) with
  | Throw e =>
      after_merge w (Some PROCESSING_ERROR) (store w) u (downloads w)
        (START ++ evs ++ FAIL e)
  | Ok doc =>
      match save_result doc with
      | None =>
          after_merge w (Some PROCESSING_ERROR) (store w) u (downloads w)
            (START ++ evs ++ [EvSave doc] ++ FAIL SaveError)
      | Some bytes =>
          let blob := BytesBlob bytes "application/pdf" in
          match click_result "merged-document.pdf" blob with
          | Saved =>
              after_merge w None (delete u (<[u:=blob]> (store w))) (S u)
                (downloads w ++ [("merged-document.pdf", blob)])
                (START ++ evs ++ [EvSave doc] ++ BEGUN u blob ++ ENDED u
                       ++ [EvSetLoading false])
          | Dismissed =>
              after_merge w None (delete u (<[u:=blob]> (store w))) (S u)
                (downloads w)
                (START ++ evs ++ [EvSave doc] ++ BEGUN u blob ++ ENDED u
                       ++ [EvSetLoading false])
          | Raised =>
              after_merge w (Some PROCESSING_ERROR) (<[u:=blob]> (store w)) (S u)
                (downloads w)
                (START ++ evs ++ [EvSave doc] ++ BEGUN u blob
                       ++ FAIL DOMException)
          end
      end
  end.

(** The world after the guard of [handleMergePdf] refused to start. *)
Definition refused (w : World) : World :=
  log [EvSetError (Some MISSING_INPUT)]
    (with_state (λ a, mkApp (pdfFile a) (images a) (loading a) (Some MISSING_INPUT)) w).

(** The world after the [catch] and [finally] blocks, given how the
    [try] block ended in [w]. *)
Definition settled (outcome : Res unit) (w : World) : World :=
  match outcome with
  | Ok _ =>
      log [EvSetLoading false]
        (with_state (λ a, mkApp (pdfFile a) (images a) false (error a)) w)
  | Throw e =>
      log [EvSetError (Some PROCESSING_ERROR); EvConsoleError e; EvSetLoading false]
        (with_state (λ a, mkApp (pdfFile a) (images a) false (Some PROCESSING_ERROR)) w)
  end.

End outcomes.

(** ** A browser and a pdf-lib to run examples with *)

Module Demo.

(** US Letter, as a loaded one-page document might have it. *)
Definition blank : PDFPage := mkPage (612%float, 792%float) [Existing []].

(** A4 in points, [595.28 × 841.89], as binary64 values. *)
Definition A4 : float * float :=
  (0x1.29a3d70a3d70ap+9%float, 0x1.a4f1eb851eb85p+9%float).

(** Empty input is rejected; anything else parses to one blank page,
    decodes to a fixed size, and serialises to one byte per page. *)
Definition lib : PdfLib := {|
  load_result b := match b with [] => None | _ => Some (mkDoc [blank] []) end;
  jpg_result b := match b with [] => None | _ => Some (100%float, 50%float) end;
  png_result b := match b with [] => None | _ => Some (200%float, 300%float) end;
  save_result d := Some (repeat "%"%byte (length (pages d)));
  default_page_size := A4
|}.

Definition saving : Browser := {| click_result _ _ := Saved |}.
Definition throwing : Browser := {| click_result _ _ := Raised |}.

Definition pdf : File := mkFile "a.pdf" "application/pdf" (Some ["%"%byte]).
Definition txt : File := mkFile "a.txt" "text/plain" (Some ["a"%byte]).
Definition png : File := mkFile "a.png" "image/png" (Some ["P"%byte]).
Definition jpg : File := mkFile "b.jpg" "image/jpeg" (Some ["J"%byte]).
Definition gif : File := mkFile "c.gif" "image/gif" (Some ["G"%byte]).
Definition broken : File := mkFile "d.png" "image/png" (Some []).

Definition pngImage : PDFImage := mkImage Png 200 300.
Definition jpgImage : PDFImage := mkImage Jpg 100 50.

(** A PDF and two images were dropped; nothing else happened yet. *)
Definition ready : World :=
  (@run lib saving [DropPdf [pdf]; DropImages [png; jpg]] initial).2.

End Demo.

(** ** Invariants of the running component *)

(** The effect that is mounted captured the current [images] array. *)
Definition synced (w : World) : Prop :=
  stale w = false ∧ effect_images w = images (state w).

(** A saved file as [triggerDownload] names and types it. *)
Definition is_merged_pdf (d : string * Blob) : Prop :=
  d.1 = "merged-document.pdf" ∧ ∃ bytes, d.2 = BytesBlob bytes "application/pdf".

(** What holds between two user actions:
    - the component is idle;
    - the entries of the Working Image Set have pairwise distinct
      preview URLs, all handed out before, and are image-type files;
    - every URL in the store was handed out before;
    - the PdfInput, when set, has the PDF media type;
    - every saved file is a merged PDF. *)
Record consistent (w : World) : Prop := mkConsistent {
  c_idle : loading (state w) = false;
  c_distinct : NoDup (preview <$> images (state w));
  c_previews : Forall (λ im, preview im < next_url w) (images (state w));
  c_store : ∀ u, is_Some (store w !! u) → u < next_url w;
  c_images : Forall (λ im, isImage (file im) = true) (images (state w));
  c_pdf : ∀ pdf, pdfFile (state w) = Some pdf → type pdf = "application/pdf";
  c_downloads : Forall is_merged_pdf (downloads w)
}.

(** The entries an image drop adds: the image-type files, each with the
    next free object URL. *)
Definition dropped (next : nat) (acceptedFiles : list File) : list ImageFile :=
  let fs := List.filter isImage acceptedFiles in
  zip_with mkImageFile fs (seq next (length fs)).

(** The store once the previews of [entries] are registered, and once
    they are revoked. *)
Definition registered (entries : list ImageFile) (st : gmap nat Blob)
    : gmap nat Blob :=
  foldl (λ st p, <[preview p := FileBlob (file p)]> st) st entries.

Definition released (entries : list ImageFile) (st : gmap nat Blob)
    : gmap nat Blob :=
  foldl (λ st p, delete (preview p) st) st entries.

(** A GIF that was dropped and has since vanished from disk: reading it
    fails. *)
Definition vanished : File := mkFile "e.gif" "image/gif" None.

(** The files whose bytes were read ([arrayBuffer()] calls), in order. *)
Definition reads (evs : list Event) : list File :=
  omap (λ e, match e with EvArrayBuffer f => Some f | _ => None end) evs.

(** ** How one entry of the loop can end *)

Section entries.
Context `{PdfLib}.

(** An entry the loop gets past: its bytes are read and, when its media
    type selects a decoder, they decode. *)
Definition embeddable (imageFile : ImageFile) : Prop :=
  ∃ b, contents (file imageFile) = Some b
       ∧ ∀ k, dispatch (type (file imageFile)) = Some k → is_Some (decoded k b).

(** An entry the loop stops at, and the exception it stops with: the
    read fails, or the bytes of a JPEG or PNG entry do not decode. *)
Definition failure_of (imageFile : ImageFile) (e : Exn) : Prop :=
  (contents (file imageFile) = None ∧ e = NotReadableError (file imageFile))
  ∨ ∃ b k, contents (file imageFile) = Some b
           ∧ dispatch (type (file imageFile)) = Some k
           ∧ decoded k b = None
           ∧ e = EmbedError k.

End entries.

(** The files that the image drops of a run hand to [withPreview], in
    order. When no file occurs twice in it, no [File] object was given a
    preview twice, and the entries of the model are those of the
    source. *)
Fixpoint image_files (actions : list Action) : list File :=
  match actions with
  | [] => []
  | DropImages acceptedFiles :: rest =>
      List.filter isImage acceptedFiles ++ image_files rest
  | _ :: rest => image_files rest
  end.


(** * Proofs *)

Section proofs.
Context `{PdfLib} `{Browser}.

(** ** Worlds and traces *)

Lemma log_log e1 e2 w : log e2 (log e1 w) = log (e1 ++ e2) w.
Proof. destruct w; unfold log, with_trace; simpl. by rewrite app_assoc. Qed.

Lemma log_nil w : log [] w = w.
Proof. destruct w; unfold log, with_trace; simpl. by rewrite app_nil_r. Qed.

Lemma new_events_log evs w : new_events w (log evs w) = evs.
Proof. unfold new_events, log, with_trace; simpl. apply drop_app_length. Qed.

Lemma dispatch_eqb (t : string) :
  dispatch t =
    if String.eqb t "image/jpeg" then Some Jpg
    else if String.eqb t "image/png" then Some Png else None.
Proof.
  unfold dispatch.
  destruct (String.eqb_spec t "image/jpeg"), (String.eqb_spec t "image/png");
    repeat case_decide; congruence.
Qed.

Lemma alter_last {A} (f : A → A) (l : list A) (x : A) :
  alter f (length l) (l ++ [x]) = l ++ [f x].
Proof.
  replace (length l) with (length l + 0) by lia.
  by rewrite alter_app_r.
Qed.

(** Runs the primitive operations of a computation on a world whose
    fields are known. *)
Ltac exec :=
  cbv [busy mbind M_bind bind mret M_ret ret throw emit get modify log with_trace
       with_state with_store arrayBuffer embedJpg embedPng embed addPage
       getSize scale drawImage save PDFDocument_load createObjectURL
       revokeObjectURL appendChild removeChild console_error click
       setLoading setError setPdfFile setImages try_catch_finally
       state store next_url effect_images stale downloads trace
       pdfFile images loading error contents file type name preview
       width height kind
       pages resources size content fst snd];
  rewrite <- ?app_assoc; cbn [app].

(** ** The loop computes what the specification says *)

Lemma mergeImage_refines pdfDoc imageFile w :
  ∃ evs, mergeImage pdfDoc imageFile w = (merged_one pdfDoc imageFile, log evs w)
         ∧ forallb preparing evs = true
         ∧ embed_calls evs = option_list (expected_call imageFile).
Proof.
  unfold mergeImage, merged_one, expected_call, decoded, centred_page, centred,
    scaled_width, scaled_height.
  rewrite dispatch_eqb.
  destruct imageFile as [[n t c] p], pdfDoc as [ps rs], w as [a st nx ei sl dl tr].
  destruct default_page_size as [W Hh] eqn:Esize.
  cbn [file contents type].
  destruct c as [b|]; [|by eexists [_]].
  destruct (String.eqb t "image/jpeg"); [|destruct (String.eqb t "image/png")].
  - destruct (jpg_result b) as [[w0 h]|] eqn:E; exec; rewrite E, ?Esize;
      rewrite ?alter_last, <- ?app_assoc; cbn [app];
      eexists; split_and!; reflexivity.
  - destruct (png_result b) as [[w0 h]|] eqn:E; exec; rewrite E, ?Esize;
      rewrite ?alter_last, <- ?app_assoc; cbn [app];
      eexists; split_and!; reflexivity.
  - by eexists [_].
Qed.

Lemma embed_calls_app a b : embed_calls (a ++ b) = embed_calls a ++ embed_calls b.
Proof. apply omap_app. Qed.

Lemma omap_cons_option_list {A B} (f : A → option B) x xs :
  omap f (x :: xs) = option_list (f x) ++ omap f xs.
Proof. cbn. by destruct (f x). Qed.

Lemma for_of_refines images pdfDoc w :
  ∃ evs, for_of images pdfDoc mergeImage w = (merged_all pdfDoc images, log evs w)
         ∧ forallb preparing evs = true
         ∧ embed_calls evs `prefix_of` omap expected_call images
         ∧ (∀ d, merged_all pdfDoc images = Ok d →
              embed_calls evs = omap expected_call images).
Proof.
  revert pdfDoc w. induction images as [|imageFile rest IH]; intros pdfDoc w.
  - exists []. by rewrite log_nil.
  - cbn [for_of merged_all]. unfold mbind, M_bind, bind.
    rewrite omap_cons_option_list.
    destruct (mergeImage_refines pdfDoc imageFile w) as (e1 & -> & He1 & Hc1).
    destruct (merged_one pdfDoc imageFile) as [doc'|e].
    + destruct (IH doc' (log e1 w)) as (e2 & -> & He2 & Hpre & Hall).
      exists (e1 ++ e2).
      rewrite log_log, forallb_app, He1, He2, embed_calls_app, Hc1.
      split_and!; [done..| |].
      * by apply prefix_app.
      * intros d Hd. by rewrite (Hall d Hd).
    + exists e1. rewrite Hc1. split_and!; [done..| |done].
      by apply prefix_app_r.
Qed.

(** ** The download step and the [try] block *)

Lemma triggerDownload_run bytes w :
  let u := next_url w in
  let blob := BytesBlob bytes "application/pdf" in
  let begun := [EvCreateObjectURL u blob; EvAppendChild;
                EvClick u "merged-document.pdf"] in
  let ended := [EvRemoveChild; EvRevokeObjectURL u] in
  triggerDownload bytes w =
    match click_result "merged-document.pdf" blob with
    | Saved =>
        (Ok tt,
         mkWorld (state w) (delete u (<[u:=blob]> (store w))) (S u)
           (effect_images w) (stale w)
           (downloads w ++ [("merged-document.pdf", blob)])
           (trace w ++ begun ++ ended))
    | Dismissed =>
        (Ok tt,
         mkWorld (state w) (delete u (<[u:=blob]> (store w))) (S u)
           (effect_images w) (stale w) (downloads w)
           (trace w ++ begun ++ ended))
    | Raised =>
        (Throw DOMException,
         mkWorld (state w) (<[u:=blob]> (store w)) (S u)
           (effect_images w) (stale w) (downloads w) (trace w ++ begun))
    end.
Proof.
  destruct w as [a st nx ei sl dl tr]. unfold triggerDownload. exec.
  rewrite lookup_insert_eq.
  destruct (click_result _ _); rewrite <- ?app_assoc; reflexivity.
Qed.

Lemma mergeBody_run pdf imgs w :
  ∃ evs, forallb preparing evs = true ∧
    mergeBody pdf imgs w =
      match merged_document pdf imgs with
      | Throw e => (Throw e, log (START ++ evs) (busy w))
      | Ok doc =>
          match save_result doc with
          | None => (Throw SaveError, log (START ++ evs ++ [EvSave doc]) (busy w))
          | Some bytes =>
              triggerDownload bytes (log (START ++ evs ++ [EvSave doc]) (busy w))
          end
      end.
Proof.
  unfold mergeBody, merged_document, START.
  destruct w as [a st nx ei sl dl tr], pdf as [pn pt [b|]]; cbn [contents].
  2:{ exists [EvArrayBuffer (mkFile pn pt None)]. split; [done|]. exec. reflexivity. }
  destruct (load_result b) as [d0|] eqn:Ed.
  2:{ exists [EvArrayBuffer (mkFile pn pt (Some b)); EvLoad b]. split; [done|].
      exec. rewrite Ed. reflexivity. }
  exec. rewrite Ed.
  match goal with |- context [for_of imgs d0 mergeImage ?w] =>
    destruct (for_of_refines imgs d0 w) as (evs & -> & Hevs & _) end.
  exists (EvArrayBuffer (mkFile pn pt (Some b)) :: EvLoad b :: evs).
  split; [done|].
  destruct (merged_all d0 imgs) as [doc|e].
  2:{ exec. reflexivity. }
  exec. destruct (save_result doc) as [bytes|]; rewrite <- ?app_assoc; reflexivity.
Qed.

(** ** [handleMergePdf], case by case *)

Lemma handleMergePdf_run w :
  handleMergePdf w =
    match pdfFile (state w), images (state w) with
    | Some pdf, _ :: _ =>
        let '(r, w1) := mergeBody pdf (images (state w)) w in
        (Ok tt, settled r w1)
    | _, _ => (Ok tt, refused w)
    end.
Proof.
  unfold handleMergePdf, refused, settled.
  destruct w as [[pf im ld er] st nx ei sl dl tr].
  destruct pf as [pdf|], im as [|i im]; try reflexivity.
  cbv [mbind M_bind bind get state pdfFile images length Nat.eqb try_catch_finally].
  destruct (mergeBody pdf (i :: im) _) as [[[]|e] [a1 st1 nx1 ei1 sl1 dl1 tr1]];
    exec; reflexivity.
Qed.

Lemma handleMergePdf_refuses w :
  pdfFile (state w) = None ∨ images (state w) = [] →
  handleMergePdf w = (Ok tt, refused w).
Proof.
  intros Hguard. rewrite handleMergePdf_run.
  destruct Hguard as [-> | ->]; [done|]. by destruct (pdfFile (state w)).
Qed.

Lemma handleMergePdf_merges w pdf :
  pdfFile (state w) = Some pdf → images (state w) ≠ [] →
  ∃ evs, forallb preparing evs = true
         ∧ handleMergePdf w = (Ok tt, merge_result w pdf evs).
Proof.
  intros Hpdf Himgs. rewrite handleMergePdf_run, Hpdf.
  destruct (images (state w)) as [|i im] eqn:Eim; [done|]. rewrite <- Eim.
  destruct (mergeBody_run pdf (images (state w)) w) as (evs & Hevs & ->).
  exists evs. split; [done|]. unfold merge_result.
  destruct (merged_document pdf (images (state w))) as [doc|e].
  2:{ destruct w as [[pf ims ld er] st nx ei sl dl tr]. unfold after_merge, FAIL, START.
      exec; cbv [settled]; exec; repeat (rewrite <- app_assoc; cbn [app]); reflexivity. }
  destruct (save_result doc) as [bytes|].
  2:{ destruct w as [[pf ims ld er] st nx ei sl dl tr]. unfold after_merge, FAIL, START.
      exec; cbv [settled]; exec; repeat (rewrite <- app_assoc; cbn [app]); reflexivity. }
  rewrite triggerDownload_run.
  destruct (click_result _ _);
    destruct w as [[pf ims ld er] st nx ei sl dl tr];
    unfold after_merge, FAIL, START, BEGUN, ENDED;
    exec; cbv [settled]; exec; repeat (rewrite <- app_assoc; cbn [app]); reflexivity.
Qed.

(** ** Reading the trace of a merge *)

Lemma omap_preparing {A} (f : Event → option A) evs :
  (∀ e, preparing e = true → f e = None) →
  forallb preparing evs = true → omap f evs = [].
Proof.
  intros Hf. induction evs as [|e evs IH]; [done|].
  cbn. intros [He Hevs]%andb_prop. rewrite (Hf e He). auto.
Qed.

Lemma new_events_after_merge w err st nx dl evs :
  new_events w (after_merge w err st nx dl evs) = evs.
Proof. unfold new_events, after_merge. cbn. apply drop_app_length. Qed.

Lemma new_events_refused w :
  new_events w (refused w) = [EvSetError (Some MISSING_INPUT)].
Proof. unfold new_events, refused, log. cbn. apply drop_app_length. Qed.

(** ** What the specified merge yields *)

Lemma merged_all_ok doc imgs d :
  merged_all doc imgs = Ok d →
  ∃ embedded,
    Forall2 embeds (List.filter supported imgs) embedded
    ∧ kind <$> embedded = omap (λ i, dispatch (type (file i))) imgs
    ∧ resources d = resources doc ++ embedded
    ∧ pages d = pages doc ++ (centred_page <$> embedded).
Proof.
  revert doc. induction imgs as [|x xs IH]; intros doc; cbn [merged_all].
  - intros [= <-]. exists []. by rewrite !app_nil_r.
  - unfold merged_one, supported. cbn [List.filter omap list_omap].
    destruct (contents (file x)) as [b|] eqn:Eb; [|done].
    destruct (dispatch (type (file x))) as [k|] eqn:Ek.
    + destruct (decoded k b) as [[w0 h]|] eqn:Ed; [|done].
      intros (embedded & Hemb & Hkinds & Hres & Hpages)%IH.
      exists (mkImage k w0 h :: embedded).
      rewrite bool_decide_eq_true_2 by eauto.
      cbn in Hres, Hpages. rewrite Hres, Hpages, <- !app_assoc.
      split_and!; [|by cbn; rewrite Hkinds|done..].
      constructor; [|done]. exists b. by rewrite Eb, Ek.
    + rewrite bool_decide_eq_false_2 by (intros [? [=]]). apply IH.
Qed.

Lemma merged_all_throw doc imgs e :
  merged_all doc imgs = Throw e →
  ∃ imageFile, imageFile ∈ imgs
    ∧ (e = NotReadableError (file imageFile)
       ∨ ∃ k, dispatch (type (file imageFile)) = Some k ∧ e = EmbedError k).
Proof.
  revert doc. induction imgs as [|x xs IH]; intros doc; cbn [merged_all]; [done|].
  destruct (merged_one doc x) as [doc'|e'] eqn:E.
  - intros (i & Hi & He)%IH. exists i. split; [by right|done].
  - intros [= ->]. exists x. split; [by left|].
    unfold merged_one in E.
    destruct (contents (file x)) as [b|]; [|left; congruence].
    destruct (dispatch (type (file x))) as [k|]; [|done].
    destruct (decoded k b) as [[]|]; [done|]. right. exists k. split; congruence.
Qed.

Lemma merged_all_complete doc imgs embedded :
  Forall (λ i, is_Some (contents (file i))) imgs →
  Forall2 embeds (List.filter supported imgs) embedded →
  merged_all doc imgs
  = Ok (mkDoc (pages doc ++ (centred_page <$> embedded))
              (resources doc ++ embedded)).
Proof.
  intros Hread. revert doc embedded.
  induction Hread as [|x xs [b Hb] _ IH]; intros doc embedded; cbn [List.filter].
  - intros ->%Forall2_nil_inv_l. destruct doc. cbn. by rewrite !app_nil_r.
  - cbn [merged_all]. unfold merged_one, supported. rewrite Hb.
    destruct (dispatch (type (file x))) as [k|] eqn:Ek.
    + rewrite bool_decide_eq_true_2 by eauto.
      intros (im & rest & (b' & Hb' & Hk & Hdec) & Hrest & ->)%Forall2_cons_inv_l.
      assert (b' = b) as -> by congruence. assert (k = kind im) as -> by congruence.
      rewrite Hdec. destruct im as [k w0 h]. cbn [kind width height].
      rewrite (IH _ rest Hrest). cbn. by rewrite <- !app_assoc.
    + rewrite bool_decide_eq_false_2 by (intros [? [=]]). apply IH.
Qed.

Lemma serialised_app a b : serialised (a ++ b) = serialised a ++ serialised b.
Proof. apply omap_app. Qed.
Lemma clicks_app a b : clicks (a ++ b) = clicks a ++ clicks b.
Proof. apply omap_app. Qed.
Lemma created_app a b : created (a ++ b) = created a ++ created b.
Proof. apply omap_app. Qed.
Lemma revoked_app a b : revoked (a ++ b) = revoked a ++ revoked b.
Proof. apply omap_app. Qed.
Lemma errors_shown_app a b :
  errors_shown (a ++ b) = errors_shown a ++ errors_shown b.
Proof. apply omap_app. Qed.

Lemma serialised_preparing evs :
  forallb preparing evs = true → serialised evs = [].
Proof. apply omap_preparing. by intros []. Qed.
Lemma clicks_preparing evs : forallb preparing evs = true → clicks evs = [].
Proof. apply omap_preparing. by intros []. Qed.
Lemma created_preparing evs : forallb preparing evs = true → created evs = [].
Proof. apply omap_preparing. by intros []. Qed.
Lemma revoked_preparing evs : forallb preparing evs = true → revoked evs = [].
Proof. apply omap_preparing. by intros []. Qed.
Lemma errors_shown_preparing evs :
  forallb preparing evs = true → errors_shown evs = [].
Proof. apply omap_preparing. by intros []. Qed.

Ltac read_trace Hevs :=
  rewrite ?serialised_app, ?clicks_app, ?created_app, ?revoked_app,
    ?errors_shown_app;
  rewrite ?(serialised_preparing _ Hevs), ?(clicks_preparing _ Hevs),
    ?(created_preparing _ Hevs), ?(revoked_preparing _ Hevs),
    ?(errors_shown_preparing _ Hevs);
  cbn.

(** ** The claims about the merge *)

Lemma serialised_by_merge w pdf :
  pdfFile (state w) = Some pdf → images (state w) ≠ [] →
  serialised (new_events w (handleMergePdf w).2)
  = match merged_document pdf (images (state w)) with
    | Ok doc => [doc]
    | Throw _ => []
    end.
Proof.
  intros Hpdf Hims.
  destruct (handleMergePdf_merges w pdf Hpdf Hims) as (evs & Hevs & ->).
  cbn [snd]. unfold merge_result.
  destruct (merged_document pdf (images (state w))) as [d|e];
    [destruct (save_result d); [destruct (click_result _ _)|]|];
    rewrite new_events_after_merge; by read_trace Hevs.
Qed.

(** C1: a merge hands at most one document to the serialiser. Whenever it
    does, that document is the parsed PDF with its pages unchanged,
    followed by one page per embedded image, in the order of the Working
    Image Set: each of the default page size and holding that image at
    0.8 of its natural size, at offsets (page extent - scaled extent) / 2.
    And when the PDF parses, every entry is read and every JPEG or PNG
    entry embeds, that document is serialised. So a one-page PDF with a
    PNG and a JPEG gives three pages. *)
Theorem C1_pages_appended_centred w pdf :
  pdfFile (state w) = Some pdf → images (state w) ≠ [] →
  let saved := serialised (new_events w (handleMergePdf w).2) in
  (∀ doc, doc ∈ saved →
     ∃ b doc0 embedded,
       contents pdf = Some b ∧ load_result b = Some doc0
       ∧ Forall2 embeds (List.filter supported (images (state w))) embedded
       ∧ pages doc = pages doc0 ++ (centred_page <$> embedded)
       ∧ length (pages doc) = length (pages doc0) + length embedded)
  ∧ (∀ b doc0 embedded,
       contents pdf = Some b → load_result b = Some doc0 →
       Forall (λ i, is_Some (contents (file i))) (images (state w)) →
       Forall2 embeds (List.filter supported (images (state w))) embedded →
       saved = [mkDoc (pages doc0 ++ (centred_page <$> embedded))
                      (resources doc0 ++ embedded)]).
Proof.
  intros Hpdf Hims saved. subst saved.
  rewrite (serialised_by_merge w pdf Hpdf Hims). unfold merged_document. split.
  - intros doc Hdoc.
    destruct (contents pdf) as [b|] eqn:Eb; [|by apply elem_of_nil in Hdoc].
    destruct (load_result b) as [doc0|] eqn:El; [|by apply elem_of_nil in Hdoc].
    destruct (merged_all doc0 (images (state w))) as [d|e] eqn:Ed;
      [|by apply elem_of_nil in Hdoc].
    apply list_elem_of_singleton in Hdoc as ->.
    apply merged_all_ok in Ed as (embedded & Hemb & _ & _ & Hpages).
    exists b, doc0, embedded. split_and!; try done.
    by rewrite Hpages, length_app, length_fmap.
  - intros b doc0 embedded -> -> Hread Hemb.
    by rewrite (merged_all_complete doc0 _ embedded Hread Hemb).
Qed.

Lemma reads_app a b : reads (a ++ b) = reads a ++ reads b.
Proof. apply omap_app. Qed.

Lemma mergeImage_reads pdfDoc imageFile w :
  reads (new_events w (mergeImage pdfDoc imageFile w).2) = [file imageFile].
Proof.
  unfold mergeImage, new_events.
  destruct imageFile as [[n t c] p], pdfDoc as [ps rs], w as [a st nx ei sl dl tr].
  destruct default_page_size as [W Hh] eqn:Esize.
  cbn [file contents type].
  destruct c as [b|];
    [destruct (String.eqb t "image/jpeg");
       [destruct (jpg_result b) as [[w0 h]|] eqn:E
       |destruct (String.eqb t "image/png");
          [destruct (png_result b) as [[w0 h]|] eqn:E|]]|];
    exec; rewrite ?E, ?Esize; cbn [snd trace];
    rewrite <- ?app_assoc, drop_app_length; reflexivity.
Qed.

Lemma merged_one_ok doc imageFile d :
  merged_one doc imageFile = Ok d → embeddable imageFile.
Proof.
  unfold merged_one, embeddable.
  destruct (contents (file imageFile)) as [b|]; [|done].
  intros Hd. exists b. split; [done|]. intros k Hk. rewrite Hk in Hd.
  by destruct (decoded k b).
Qed.

Lemma merged_one_throw doc imageFile e :
  merged_one doc imageFile = Throw e → failure_of imageFile e.
Proof.
  unfold merged_one, failure_of.
  destruct (contents (file imageFile)) as [b|]; [|intros [= <-]; by left].
  destruct (dispatch (type (file imageFile))) as [k|]; [|done].
  destruct (decoded k b) as [[]|] eqn:Ed; [done|].
  intros [= <-]. right. by exists b, k.
Qed.


Lemma for_of_exact images pdfDoc w :
  ∃ evs, for_of images pdfDoc mergeImage w = (merged_all pdfDoc images, log evs w)
    ∧ forallb preparing evs = true
    ∧ match merged_all pdfDoc images with
      | Ok _ =>
          Forall embeddable images
          ∧ embed_calls evs = omap expected_call images
          ∧ reads evs = file <$> images
      | Throw e =>
          ∃ pre imageFile post,
            images = pre ++ imageFile :: post
            ∧ Forall embeddable pre
            ∧ failure_of imageFile e
            ∧ embed_calls evs = omap expected_call (pre ++ [imageFile])
            ∧ reads evs = file <$> (pre ++ [imageFile])
      end.
Proof.
  revert pdfDoc w. induction images as [|x rest IH]; intros pdfDoc w.
  - exists []. by rewrite log_nil.
  - cbn [for_of merged_all]. unfold mbind, M_bind, bind.
    pose proof (mergeImage_reads pdfDoc x w) as Hr1.
    destruct (mergeImage_refines pdfDoc x w) as (e1 & Heq & He1 & Hc1).
    rewrite Heq in Hr1 |- *. cbn [snd] in Hr1. rewrite new_events_log in Hr1.
    destruct (merged_one pdfDoc x) as [doc'|e] eqn:E1.
    + destruct (IH doc' (log e1 w)) as (e2 & -> & He2 & Hcase).
      exists (e1 ++ e2).
      rewrite log_log, forallb_app, He1, He2, embed_calls_app, reads_app, Hc1, Hr1.
      split_and!; [done..|].
      destruct (merged_all doc' rest) as [d|e].
      * destruct Hcase as (Hall & -> & ->).
        split_and!; [|by rewrite omap_cons_option_list|done].
        constructor; [by eapply merged_one_ok|done].
      * destruct Hcase as (pre & y & post & -> & Hpre & Hy & -> & ->).
        exists (x :: pre), y, post.
        split_and!; [done| |done|by rewrite <- omap_cons_option_list|done].
        constructor; [by eapply merged_one_ok|done].
    + exists e1. split_and!; [done..|].
      exists [], x, rest. rewrite Hc1, Hr1.
      split_and!; [done|done|by eapply merged_one_throw| |done].
      cbn [app]. by rewrite omap_cons_option_list, app_nil_r.
Qed.


(** C3: without a PDF, or with an empty Working Image Set,
    [handleMergePdf] only shows the "missing PDF or images" message: the
    one call it makes is that [setError]; the busy flag, the object URLs
    and the downloads are untouched and nothing is read or parsed. *)
Theorem C3_merge_refused_without_inputs w :
  pdfFile (state w) = None ∨ images (state w) = [] →
  let '(r, w') := handleMergePdf w in
  r = Ok tt
  ∧ new_events w w' = [EvSetError (Some MISSING_INPUT)]
  ∧ state w' = mkApp (pdfFile (state w)) (images (state w)) (loading (state w))
                     (Some MISSING_INPUT)
  ∧ store w' = store w ∧ next_url w' = next_url w
  ∧ downloads w' = downloads w.
Proof.
  intros Hguard. rewrite (handleMergePdf_refuses w Hguard).
  rewrite new_events_refused. by destruct w.
Qed.

(** C4: [handleMergePdf] never throws. Started from an idle component it
    ends idle; once past the guard it ends with the busy flag false and
    [setLoading(false)] as its last call, whatever happened in between.
    It then either shows no error, or shows the one generic message,
    once; the latter whenever reading, parsing, embedding or serialising
    failed, and the exception is logged to the console. *)
Theorem C4_merge_always_settles w :
  let '(r, w') := handleMergePdf w in
  let evs := new_events w w' in
  r = Ok tt
  ∧ (loading (state w) = false → loading (state w') = false)
  ∧ ∀ pdf, pdfFile (state w) = Some pdf → images (state w) ≠ [] →
      loading (state w') = false
      ∧ last evs = Some (EvSetLoading false)
      ∧ ((error (state w') = None ∧ errors_shown evs = [])
         ∨ (error (state w') = Some PROCESSING_ERROR
            ∧ errors_shown evs = [PROCESSING_ERROR]))
      ∧ ∀ e, merged_bytes pdf (images (state w)) = Throw e →
          error (state w') = Some PROCESSING_ERROR
          ∧ errors_shown evs = [PROCESSING_ERROR]
          ∧ EvConsoleError e ∈ evs.
Proof.
  destruct (handleMergePdf w) as [r w'] eqn:Erun.
  assert (r = Ok tt) as ->.
  { rewrite handleMergePdf_run in Erun.
    destruct (pdfFile (state w)), (images (state w)); try congruence.
    destruct (mergeBody _ _ _). congruence. }
  split; [done|]. split.
  - intros Hidle. rewrite handleMergePdf_run in Erun.
    destruct (pdfFile (state w)) as [pdf|], (images (state w)) as [|i im];
      try (injection Erun as <-; destruct w as [[] ?]; exact Hidle).
    destruct (mergeBody _ _ _) as [[] [[] ?]];
      injection Erun as <-; reflexivity.
  - intros pdf Hpdf Hims.
    destruct (handleMergePdf_merges w pdf Hpdf Hims) as (evs & Hevs & Hrun).
    rewrite Hrun in Erun. injection Erun as <-.
    unfold merge_result, merged_bytes.
    destruct (merged_document pdf (images (state w))) as [d|e0];
      [destruct (save_result d); [destruct (click_result _ _)|]|];
      rewrite new_events_after_merge; cbn [state loading error after_merge];
      (split; [done|]);
      (split; [unfold START, FAIL, BEGUN, ENDED; by rewrite !last_app|]);
      (split; [read_trace Hevs; auto|]);
      intros e [= <-]; read_trace Hevs; (split_and!; [done..|]);
      unfold FAIL; set_solver.
Qed.

(** C5: when [handleMergePdf] is refused, or a step up to and including
    serialisation fails, no object URL is created, the anchor is not
    clicked and nothing is delivered. When the anchor is clicked or a
    file is delivered, the whole document was built and serialised
    before, no click or URL precedes the [save] call, and what is
    delivered is exactly the serialised bytes. *)
Theorem C5_download_only_after_serialisation w :
  let w' := (handleMergePdf w).2 in
  let evs := new_events w w' in
  (pdfFile (state w) = None ∨ images (state w) = [] →
     clicks evs = [] ∧ created evs = [] ∧ downloads w' = downloads w)
  ∧ ∀ pdf, pdfFile (state w) = Some pdf →
      (∀ e, merged_bytes pdf (images (state w)) = Throw e →
         clicks evs = [] ∧ created evs = [] ∧ downloads w' = downloads w)
      ∧ (clicks evs ≠ [] ∨ downloads w' ≠ downloads w →
         ∃ doc bytes pre post,
           merged_document pdf (images (state w)) = Ok doc
           ∧ save_result doc = Some bytes
           ∧ evs = pre ++ EvSave doc :: post
           ∧ clicks pre = [] ∧ created pre = []
           ∧ clicks post = [(next_url w, "merged-document.pdf")]
           ∧ (downloads w' = downloads w
              ∨ downloads w'
                = downloads w
                  ++ [("merged-document.pdf", BytesBlob bytes "application/pdf")])).
Proof.
  cbv zeta. split.
  { intros Hguard. rewrite (handleMergePdf_refuses w Hguard). cbn [snd].
    rewrite new_events_refused. by destruct w. }
  intros pdf Hpdf.
  destruct (decide (images (state w) = [])) as [Hnil|Hims].
  { rewrite (handleMergePdf_refuses w (or_intror Hnil)). cbn [snd].
    rewrite new_events_refused.
    assert (downloads (refused w) = downloads w) as -> by by destruct w.
    split; [done|]. intros [|]; done. }
  destruct (handleMergePdf_merges w pdf Hpdf Hims) as (evs & Hevs & ->).
  cbn [snd]. unfold merge_result, merged_bytes.
  destruct (merged_document pdf (images (state w))) as [d|e0].
  2:{ rewrite new_events_after_merge. cbn [downloads after_merge].
      read_trace Hevs. split; [done|]. intros [|]; done. }
  destruct (save_result d) as [bytes|] eqn:Esave.
  2:{ rewrite new_events_after_merge. cbn [downloads after_merge].
      read_trace Hevs. split; [done|]. intros [|]; done. }
  split; [done|]. intros _.
  exists d, bytes, (START ++ evs).
  destruct (click_result _ _); rewrite new_events_after_merge;
    cbn [downloads after_merge]; eexists;
    (split_and!; [done|done|by rewrite <- app_assoc|..]);
    read_trace Hevs; auto.
Qed.


(** ** The claims about the drop handlers *)

(** C6: a PDF drop whose first file has the media type application/pdf
    makes that file the PdfInput and clears the error; an empty drop, or
    one whose first file has another type, leaves the PdfInput as it was
    and shows the "invalid PDF" message. *)
Theorem C6_pdf_drop_validates acceptedFiles w :
  let '(r, w') := onPdfDrop acceptedFiles w in
  r = Ok tt
  ∧ (∀ first rest, acceptedFiles = first :: rest →
       type first = "application/pdf" →
       pdfFile (state w') = Some first ∧ error (state w') = None)
  ∧ (acceptedFiles = []
     ∨ (∃ first rest, acceptedFiles = first :: rest
                      ∧ type first ≠ "application/pdf") →
     pdfFile (state w') = pdfFile (state w)
     ∧ error (state w') = Some INVALID_PDF).
Proof.
  unfold onPdfDrop. destruct w as [[pf im ld er] st nx ei sl dl tr].
  destruct acceptedFiles as [|first rest]; cbn [lookup list_lookup].
  - exec. split_and!; [done|done|]. by intros _.
  - cbn [length Nat.ltb Nat.leb andb].
    destruct (String.eqb_spec (type first) "application/pdf") as [Heq|Hne]; exec.
    + split_and!; [done| |].
      * by intros ? ? [= <- <-] _.
      * intros [|(f & r & [= <- <-] & Hne)]; done.
    + split_and!; [done| |].
      * intros ? ? [= <- <-] ?. done.
      * done.
Qed.

Lemma append_String c p r :
  String.append (String c p) r = String c (String.append p r).
Proof. reflexivity. Qed.

Lemma prefix_spec p s :
  String.prefix p s = true ↔ ∃ r, s = String.append p r.
Proof.
  revert s. induction p as [|c p IH]; intros [|c' s]; cbn.
  - split; eauto.
  - split; eauto.
  - split; [done|by intros [r [=]]].
  - setoid_rewrite append_String.
    destruct (Ascii.ascii_dec c c') as [->|Hne].
    + rewrite IH. split; intros [r Hr]; exists r; congruence.
    + split; [done|intros [r Hr]; congruence].
Qed.

Lemma isImage_prefix f :
  isImage f = true ↔ ∃ subtype, type f = String.append "image/" subtype.
Proof. apply prefix_spec. Qed.

Lemma mapM_withPreview fs w :
  ∃ evs,
    mapM withPreview fs w
    = (Ok (zip_with mkImageFile fs (seq (next_url w) (length fs))),
       mkWorld (state w)
         (foldl (λ st p, <[preview p := FileBlob (file p)]> st) (store w)
            (zip_with mkImageFile fs (seq (next_url w) (length fs))))
         (next_url w + length fs) (effect_images w) (stale w) (downloads w)
         (trace w ++ evs))
    ∧ errors_shown evs = [] ∧ revoked evs = []
    ∧ created evs = seq (next_url w) (length fs).
Proof.
  revert w. induction fs as [|f fs IH]; intros w.
  - exists []. destruct w. cbn. by rewrite Nat.add_0_r, app_nil_r.
  - cbn [mapM]. unfold mbind, M_bind, bind. unfold withPreview at 1.
    destruct w as [a st nx ei sl dl tr]. exec.
    match goal with |- context [mapM withPreview fs ?w1] =>
      destruct (IH w1) as (evs & -> & Herr & Hrev & Hcre) end.
    exists (EvCreateObjectURL nx (FileBlob f) :: evs).
    split_and!; [|exact Herr|exact Hrev|exact (f_equal (cons nx) Hcre)].
    cbn [next_url state store effect_images stale downloads trace length seq
         zip_with foldl file preview] in *.
    rewrite <- app_assoc.
    by replace (nx + S (length fs)) with (S nx + length fs) by lia.
Qed.

Lemma file_zip_with fs n :
  file <$> zip_with mkImageFile fs (seq n (length fs)) = fs.
Proof. revert n. induction fs as [|f fs IH]; intros n; [done|]. cbn. by rewrite IH. Qed.

Lemma onImagesDrop_run acceptedFiles w :
  ∃ evs added st,
    onImagesDrop acceptedFiles w
    = (Ok tt,
       mkWorld (mkApp (pdfFile (state w)) (images (state w) ++ added)
                      (loading (state w)) None)
         st (next_url w + length added) (effect_images w) true (downloads w)
         (trace w ++ evs ++ [EvSetImages (images (state w) ++ added);
                             EvSetError None]))
    ∧ file <$> added = List.filter isImage acceptedFiles
    ∧ errors_shown evs = [] ∧ revoked evs = [].
Proof.
  unfold onImagesDrop, mbind, M_bind, bind.
  destruct w as [[pf im ld er] st nx ei sl dl tr].
  destruct (mapM_withPreview (List.filter isImage acceptedFiles)
              (mkWorld (mkApp pf im ld er) st nx ei sl dl tr))
    as (evs & -> & Herr & Hrev & _).
  set (fs := List.filter isImage acceptedFiles).
  exists evs, (zip_with mkImageFile fs (seq nx (length fs))).
  eexists. split_and!; [|apply file_zip_with|done..].
  rewrite length_zip_with, length_seq, Nat.min_id. exec.
  rewrite <- ?app_assoc. reflexivity.
Qed.

(** C7: after an image drop the Working Image Set is the prior set,
    unchanged and in order, followed by the dropped files whose media
    type begins with "image/", in their dropped order; nothing is
    deduplicated. *)
Theorem C7_image_drop_appends acceptedFiles w :
  let w' := (onImagesDrop acceptedFiles w).2 in
  file <$> images (state w')
  = (file <$> images (state w)) ++ List.filter isImage acceptedFiles
  ∧ (∃ added, images (state w') = images (state w) ++ added
              ∧ file <$> added = List.filter isImage acceptedFiles)
  ∧ ∀ f, f ∈ List.filter isImage acceptedFiles ↔
         f ∈ acceptedFiles ∧ ∃ subtype, type f = String.append "image/" subtype.
Proof.
  cbv zeta.
  destruct (onImagesDrop_run acceptedFiles w) as (evs & added & st & -> & Hfiles & _).
  cbn [snd state images]. split_and!.
  - by rewrite fmap_app, Hfiles.
  - by exists added.
  - intros f. rewrite <- isImage_prefix, !list_elem_of_In, filter_In. done.
Qed.

(** C10: every image drop ends with [setError(null)] and shows no
    message, whatever was dropped, so also when no dropped file has an
    image media type. *)
Theorem C10_image_drop_clears_error acceptedFiles w :
  let '(r, w') := onImagesDrop acceptedFiles w in
  r = Ok tt
  ∧ error (state w') = None
  ∧ errors_shown (new_events w w') = []
  ∧ last (new_events w w') = Some (EvSetError None).
Proof.
  destruct (onImagesDrop_run acceptedFiles w) as (evs & added & st & -> & _ & Herr & _).
  unfold new_events. cbn [trace state error]. rewrite drop_app_length.
  by rewrite errors_shown_app, Herr, last_app.
Qed.
(** ** The remaining handlers, case by case *)

Lemma filter_index_delete {A} (index k : nat) (l : list A) :
  filter_index (λ i, negb (i =? index)) k l
  = if decide (index < k) then l else delete (index - k) l.
Proof.
  revert k. induction l as [|x l IH]; intros k; cbn [filter_index].
  - by case_decide.
  - rewrite IH. destruct (Nat.eqb_spec k index) as [->|Hne]; cbn [negb].
    + rewrite Nat.sub_diag. repeat case_decide; (done || lia).
    + repeat case_decide; try lia; try done.
      replace (index - k) with (S (index - S k)) by lia. done.
Qed.

Lemma onRemoveClick_run index w :
  onRemoveClick index w
  = (Ok tt,
     mkWorld (mkApp (pdfFile (state w)) (delete index (images (state w)))
                    (loading (state w)) (error (state w)))
       (store w) (next_url w) (effect_images w) true (downloads w)
       (trace w ++ [EvSetImages (delete index (images (state w)))])).
Proof.
  unfold onRemoveClick. destruct w as [[pf im ld er] st nx ei sl dl tr]. exec.
  by rewrite filter_index_delete, Nat.sub_0_r.
Qed.

Lemma onPdfDrop_run acceptedFiles w :
  onPdfDrop acceptedFiles w
  = (Ok tt,
     match acceptedFiles with
     | first :: _ =>
         if decide (type first = "application/pdf") then
           mkWorld (mkApp (Some first) (images (state w)) (loading (state w)) None)
             (store w) (next_url w) (effect_images w) (stale w) (downloads w)
             (trace w ++ [EvSetPdfFile first; EvSetError None])
         else
           mkWorld (mkApp (pdfFile (state w)) (images (state w))
                          (loading (state w)) (Some INVALID_PDF))
             (store w) (next_url w) (effect_images w) (stale w) (downloads w)
             (trace w ++ [EvSetError (Some INVALID_PDF)])
     | [] =>
         mkWorld (mkApp (pdfFile (state w)) (images (state w))
                        (loading (state w)) (Some INVALID_PDF))
           (store w) (next_url w) (effect_images w) (stale w) (downloads w)
           (trace w ++ [EvSetError (Some INVALID_PDF)])
     end).
Proof.
  unfold onPdfDrop. destruct w as [[pf im ld er] st nx ei sl dl tr].
  destruct acceptedFiles as [|first rest]; cbn [lookup list_lookup]; [by exec|].
  cbn [length Nat.ltb Nat.leb andb].
  destruct (String.eqb_spec (type first) "application/pdf");
    case_decide; try done; by exec.
Qed.

Lemma onImagesDrop_explicit acceptedFiles w :
  ∃ evs,
    onImagesDrop acceptedFiles w
    = (Ok tt,
       let added := dropped (next_url w) acceptedFiles in
       mkWorld (mkApp (pdfFile (state w)) (images (state w) ++ added)
                      (loading (state w)) None)
         (registered added (store w)) (next_url w + length added)
         (effect_images w) true (downloads w)
         (trace w ++ evs ++ [EvSetImages (images (state w) ++ added);
                             EvSetError None]))
    ∧ errors_shown evs = [] ∧ revoked evs = []
    ∧ created evs = preview <$> dropped (next_url w) acceptedFiles.
Proof.
  unfold onImagesDrop, mbind, M_bind, bind, dropped, registered.
  destruct w as [[pf im ld er] st nx ei sl dl tr].
  destruct (mapM_withPreview (List.filter isImage acceptedFiles)
              (mkWorld (mkApp pf im ld er) st nx ei sl dl tr))
    as (evs & -> & Herr & Hrev & Hcre).
  exists evs. split_and!; [|done..|].
  - cbv zeta. rewrite length_zip_with, length_seq, Nat.min_id. exec.
    rewrite <- ?app_assoc. reflexivity.
  - rewrite Hcre. cbn [next_url]. clear.
    generalize nx. induction (List.filter isImage acceptedFiles) as [|f fs IH];
      intros n; [reflexivity|]. cbn. f_equal. apply IH.
Qed.

Lemma cleanup_run entries w :
  cleanup entries w
  = (Ok tt,
     mkWorld (state w) (released entries (store w)) (next_url w)
       (effect_images w) (stale w) (downloads w)
       (trace w ++ (EvRevokeObjectURL ∘ preview <$> entries))).
Proof.
  unfold cleanup, released. revert w.
  induction entries as [|im entries IH]; intros w.
  - destruct w. cbn. by rewrite app_nil_r.
  - cbn [forEach]. unfold mbind, M_bind, bind.
    destruct w as [a st nx ei sl dl tr]. exec.
    rewrite IH. cbn. by rewrite <- app_assoc.
Qed.

Lemma commit_run w :
  commit w
  = (Ok tt,
     if stale w then
       mkWorld (state w) (released (effect_images w) (store w)) (next_url w)
         (images (state w)) false (downloads w)
         (trace w ++ (EvRevokeObjectURL ∘ preview <$> effect_images w))
     else w).
Proof.
  unfold commit, mbind, M_bind, bind, get.
  destruct (stale w) eqn:Es; [|done].
  rewrite cleanup_run. by destruct w.
Qed.

Lemma unmount_run w :
  unmount w
  = (Ok tt,
     mkWorld (state w) (released (effect_images w) (store w)) (next_url w)
       (effect_images w) (stale w) (downloads w)
       (trace w ++ (EvRevokeObjectURL ∘ preview <$> effect_images w))).
Proof. unfold unmount, mbind, M_bind, bind, get. apply cleanup_run. Qed.

(** ** Lookups in the URL store *)

Lemma released_lookup entries st u :
  released entries st !! u
  = if decide (u ∈ preview <$> entries) then None else st !! u.
Proof.
  unfold released. revert st. induction entries as [|im entries IH]; intros st.
  - cbn. destruct (decide _) as [Hin|]; [by apply elem_of_nil in Hin|done].
  - cbn [foldl fmap list_fmap]. rewrite IH.
    destruct (decide (u ∈ preview <$> entries)) as [Hin|Hnin];
      destruct (decide (u ∈ preview im :: (preview <$> entries))) as [Hin'|Hnin'].
    + done.
    + exfalso. apply Hnin'. by right.
    + apply elem_of_cons in Hin' as [->|]; [|done].
      apply lookup_delete_eq.
    + apply lookup_delete_ne. intros Heq. apply Hnin'. rewrite Heq. by left.
Qed.

Lemma registered_lookup fs n st u :
  registered (zip_with mkImageFile fs (seq n (length fs))) st !! u
  = if decide (n ≤ u < n + length fs) then FileBlob <$> fs !! (u - n)
    else st !! u.
Proof.
  unfold registered. revert n st. induction fs as [|f fs IH]; intros n st.
  - cbn. case_decide; [lia|done].
  - cbn [length seq zip_with foldl]. rewrite IH. cbn [preview file].
    destruct (decide (u = n)) as [->|Hne].
    + rewrite Nat.sub_diag. repeat case_decide; try lia.
      by rewrite lookup_insert_eq.
    + rewrite lookup_insert_ne by done.
      repeat case_decide; try lia; try done.
      replace (u - n) with (S (u - S n)) by lia. done.
Qed.

(** ** The entries a drop adds *)

Lemma dropped_files n fs : file <$> dropped n fs = List.filter isImage fs.
Proof. apply file_zip_with. Qed.

Lemma dropped_length n fs : length (dropped n fs) = length (List.filter isImage fs).
Proof. unfold dropped. by rewrite length_zip_with, length_seq, Nat.min_id. Qed.

Lemma dropped_previews n fs :
  preview <$> dropped n fs = seq n (length (dropped n fs)).
Proof.
  rewrite dropped_length. unfold dropped. cbv zeta.
  revert n. induction (List.filter isImage fs) as [|f l IH]; intros n; [done|].
  cbn. f_equal. apply IH.
Qed.

Lemma dropped_images n fs :
  Forall (λ im, isImage (file im) = true) (dropped n fs).
Proof.
  apply Forall_forall. intros im Him.
  assert (file im ∈ List.filter isImage fs) as Hf.
  { rewrite <- (dropped_files n). apply list_elem_of_fmap. eauto. }
  apply list_elem_of_In, filter_In in Hf. tauto.
Qed.

Lemma dropped_app n fs gs :
  dropped n (fs ++ gs)
  = dropped n fs ++ dropped (n + length (dropped n fs)) gs.
Proof.
  rewrite dropped_length. unfold dropped. cbv zeta.
  rewrite List.filter_app, length_app, seq_app.
  by rewrite zip_with_app by by rewrite length_seq.
Qed.

Lemma registered_dropped n fs st u :
  registered (dropped n fs) st !! u
  = if decide (n ≤ u < n + length (dropped n fs))
    then FileBlob <$> List.filter isImage fs !! (u - n)
    else st !! u.
Proof. rewrite dropped_length. apply registered_lookup. Qed.

(** ** The invariants are kept *)

Lemma consistent_initial : consistent initial ∧ synced initial.
Proof.
  split; [|done]. constructor; cbn; try done; try constructor.
  intros u. rewrite lookup_empty. by intros [? [=]].
Qed.

Lemma onPdfDrop_consistent fs w :
  consistent w →
  ∃ w', onPdfDrop fs w = (Ok tt, w') ∧ consistent w'
        ∧ images (state w') = images (state w)
        ∧ stale w' = stale w ∧ effect_images w' = effect_images w.
Proof.
  intros [Hidle Hdis Hpre Hst Him Hpdf Hdl]. rewrite onPdfDrop_run.
  eexists. split; [done|].
  destruct fs as [|first rest]; [|case_decide];
    (split; [constructor; cbn; try done|done]).
  by intros pdf [= <-].
Qed.

Lemma onImagesDrop_consistent fs w :
  consistent w →
  ∃ w', onImagesDrop fs w = (Ok tt, w') ∧ consistent w' ∧ stale w' = true
        ∧ effect_images w' = effect_images w.
Proof.
  intros [Hidle Hdis Hpre Hst Him Hpdf Hdl].
  destruct (onImagesDrop_explicit fs w) as (evs & -> & _).
  eexists. split; [done|]. cbv zeta. split; [|done].
  constructor; cbn [state loading images pdfFile store next_url downloads];
    try done.
  - rewrite fmap_app, dropped_previews. apply NoDup_app.
    split_and!; [done| |apply NoDup_seq].
    intros u (im & -> & Hin)%list_elem_of_fmap Hu%elem_of_seq.
    rewrite Forall_forall in Hpre. specialize (Hpre im Hin). lia.
  - apply Forall_app. split.
    + eapply Forall_impl; [exact Hpre|]. intros ? ?. cbn beta in *. lia.
    + apply Forall_forall. intros im Hin.
      assert (preview im ∈ seq (next_url w) (length (dropped (next_url w) fs)))
        as Hu%elem_of_seq; [|lia].
      rewrite <- dropped_previews. apply list_elem_of_fmap. eauto.
  - intros u. rewrite registered_dropped.
    case_decide; [lia|]. intros Hu%Hst. lia.
  - apply Forall_app. split; [done|apply dropped_images].
Qed.

Lemma onRemoveClick_consistent index w :
  consistent w →
  ∃ w', onRemoveClick index w = (Ok tt, w') ∧ consistent w' ∧ stale w' = true
        ∧ effect_images w' = effect_images w.
Proof.
  intros [Hidle Hdis Hpre Hst Him Hpdf Hdl]. rewrite onRemoveClick_run.
  eexists. split; [done|]. split; [|done].
  constructor; cbn [state loading images pdfFile store next_url downloads];
    try done.
  - rewrite list_fmap_delete. eauto using sublist_NoDup, sublist_delete.
  - by apply Forall_delete.
  - by apply Forall_delete.
Qed.

Lemma handleMergePdf_consistent w :
  consistent w →
  ∃ w', handleMergePdf w = (Ok tt, w') ∧ consistent w'
        ∧ images (state w') = images (state w)
        ∧ stale w' = stale w ∧ effect_images w' = effect_images w.
Proof.
  intros [Hidle Hdis Hpre Hst Him Hpdf Hdl].
  destruct (pdfFile (state w)) as [pdf|] eqn:Epdf;
    [destruct (decide (images (state w) = [])) as [Hnil|Hims]|].
  1,3: rewrite handleMergePdf_refuses by auto; eexists; (split; [done|]);
       (split; [|done]); constructor; cbn; try done; by rewrite Epdf.
  destruct (handleMergePdf_merges w pdf Epdf Hims) as (evs & _ & ->).
  eexists. split; [done|]. unfold merge_result.
  assert (∀ err st nx dl tr,
            next_url w ≤ nx → (∀ u, is_Some (st !! u) → u < nx) →
            Forall is_merged_pdf dl →
            consistent (after_merge w err st nx dl tr)) as Hafter.
  { intros err st nx dl tr Hnx Hst' Hdl'. constructor; cbn; try done.
    - eapply Forall_impl; [exact Hpre|]. intros ? ?. cbn beta in *. lia.
    - by rewrite Epdf. }
  destruct (merged_document pdf (images (state w))) as [d|e];
    [destruct (save_result d) as [bytes|]; [destruct (click_result _ _)|]|];
    (split; [apply Hafter|done]); try done; try lia;
    try (apply Forall_app; split; [done|]; apply Forall_singleton;
         split; [done|by eexists]);
    intros u Hu; try apply lookup_delete_is_Some in Hu as [_ Hu];
    apply lookup_insert_is_Some in Hu as [?|[_ Hu%Hst]]; lia.
Qed.

Lemma commit_consistent w :
  consistent w →
  ∃ w', commit w = (Ok tt, w') ∧ consistent w'
        ∧ state w' = state w ∧ next_url w' = next_url w
        ∧ (stale w = true ∨ synced w → synced w').
Proof.
  intros [Hidle Hdis Hpre Hst Him Hpdf Hdl]. rewrite commit_run.
  eexists. split; [done|]. destruct (stale w) eqn:Es.
  - split_and!; [|done..|by intros _].
    constructor; cbn; try done.
    intros u. rewrite released_lookup. case_decide; [by intros [? [=]]|auto].
  - split_and!; [done..|]. by intros [|].
Qed.

Lemma unmount_consistent w :
  consistent w →
  ∃ w', unmount w = (Ok tt, w') ∧ consistent w' ∧ (synced w → synced w').
Proof.
  intros [Hidle Hdis Hpre Hst Him Hpdf Hdl]. rewrite unmount_run.
  eexists. split; [done|]. split; [|done].
  constructor; cbn; try done.
  intros u. rewrite released_lookup. case_decide; [by intros [? [=]]|auto].
Qed.

Lemma act_consistent a w :
  consistent w → synced w →
  ∃ w', act a w = (Ok tt, w') ∧ consistent w' ∧ synced w'.
Proof.
  intros Hc Hs. destruct a as [fs|fs|index| |]; cbn [act];
    unfold mbind, M_bind, bind.
  - destruct (onPdfDrop_consistent fs w Hc) as (w1 & -> & Hc1 & Him & Hsl & Hei).
    destruct (commit_consistent w1 Hc1) as (w2 & -> & Hc2 & _ & _ & Hs2).
    exists w2. split_and!; [done..|]. apply Hs2. right.
    destruct Hs as [? ?]. split; congruence.
  - destruct (onImagesDrop_consistent fs w Hc) as (w1 & -> & Hc1 & Hsl & Hei).
    destruct (commit_consistent w1 Hc1) as (w2 & -> & Hc2 & _ & _ & Hs2).
    exists w2. auto.
  - destruct (onRemoveClick_consistent index w Hc) as (w1 & -> & Hc1 & Hsl & Hei).
    destruct (commit_consistent w1 Hc1) as (w2 & -> & Hc2 & _ & _ & Hs2).
    exists w2. auto.
  - unfold get. destruct (mergeDisabled (state w)); [by exists w|].
    unfold mbind, M_bind, bind.
    destruct (handleMergePdf_consistent w Hc) as (w1 & -> & Hc1 & Him & Hsl & Hei).
    destruct (commit_consistent w1 Hc1) as (w2 & -> & Hc2 & _ & _ & Hs2).
    exists w2. split_and!; [done..|]. apply Hs2. right.
    destruct Hs as [? ?]. split; congruence.
  - destruct (unmount_consistent w Hc) as (w1 & -> & Hc1 & Hs1). exists w1. auto.
Qed.

Lemma run_consistent actions w :
  consistent w → synced w →
  ∃ w', run actions w = (Ok tt, w') ∧ consistent w' ∧ synced w'.
Proof.
  unfold run. revert w. induction actions as [|a actions IH]; intros w Hc Hs.
  - by exists w.
  - cbn [forEach]. unfold mbind, M_bind, bind.
    destruct (act_consistent a w Hc Hs) as (w1 & -> & Hc1 & Hs1). by apply IH.
Qed.

Lemma reachable actions :
  ∃ w, run actions initial = (Ok tt, w) ∧ consistent w ∧ synced w.
Proof. apply run_consistent; apply consistent_initial. Qed.

(** ** What one action does to the Working Image Set and the URL store *)

Lemma dropped_lookup n fs i :
  dropped n fs !! i
  = (λ f, mkImageFile f (n + i)) <$> (List.filter isImage fs !! i).
Proof.
  unfold dropped. cbv zeta. revert n i.
  induction (List.filter isImage fs) as [|f l IH]; intros n [|i]; cbn; try done.
  - by rewrite Nat.add_0_r.
  - rewrite IH. by replace (S n + i) with (n + S i) by lia.
Qed.

Lemma act_DropImages_run fs w :
  ∃ evs,
    act (DropImages fs) w
    = (Ok tt,
       let added := dropped (next_url w) fs in
       mkWorld (mkApp (pdfFile (state w)) (images (state w) ++ added)
                      (loading (state w)) None)
         (released (effect_images w) (registered added (store w)))
         (next_url w + length added) (images (state w) ++ added) false
         (downloads w) (trace w ++ evs)).
Proof.
  cbn [act]. unfold mbind, M_bind, bind.
  destruct (onImagesDrop_explicit fs w) as (evs & -> & _).
  rewrite commit_run. cbv zeta. cbn [stale state store next_url effect_images
    downloads trace images]. eexists. by rewrite <- app_assoc.
Qed.

Lemma act_ClickRemove_run index w :
  ∃ evs,
    act (ClickRemove index) w
    = (Ok tt,
       mkWorld (mkApp (pdfFile (state w)) (delete index (images (state w)))
                      (loading (state w)) (error (state w)))
         (released (effect_images w) (store w)) (next_url w)
         (delete index (images (state w))) false (downloads w)
         (trace w ++ evs)).
Proof.
  cbn [act]. unfold mbind, M_bind, bind.
  rewrite onRemoveClick_run, commit_run.
  cbn [stale state store next_url effect_images downloads trace images].
  eexists. by rewrite <- app_assoc.
Qed.

Lemma delete_out_of_range {A} (l : list A) i : length l ≤ i → delete i l = l.
Proof.
  revert i. induction l as [|x l IH]; intros [|i] Hi; cbn in *; try done; try lia.
  f_equal. apply IH. lia.
Qed.

Lemma revoked_revokes entries :
  revoked (EvRevokeObjectURL ∘ preview <$> entries) = preview <$> entries.
Proof. induction entries as [|im l IH]; [done|]. cbn. f_equal. apply IH. Qed.

Lemma errors_shown_revokes entries :
  errors_shown (EvRevokeObjectURL ∘ preview <$> entries) = [].
Proof. by induction entries. Qed.

(** ** Further properties of the handlers *)

(** X1: the remove button deletes the entry with the given index and
    nothing else: the entries before it keep their place, those after it
    move up by one, an index beyond the end changes nothing; the handler
    itself touches neither the PdfInput nor any object URL. *)
Theorem remove_deletes_entry index w :
  let '(r, w') := onRemoveClick index w in
  let before := images (state w) in
  let after := images (state w') in
  r = Ok tt
  ∧ (∀ j, j < index → after !! j = before !! j)
  ∧ (∀ j, index ≤ j → after !! j = before !! S j)
  ∧ (index < length before → S (length after) = length before)
  ∧ (length before ≤ index → after = before)
  ∧ pdfFile (state w') = pdfFile (state w)
  ∧ store w' = store w
  ∧ new_events w w' = [EvSetImages after].
Proof.
  rewrite onRemoveClick_run. cbv zeta. cbn [state images pdfFile store].
  split_and!; try done.
  - intros j Hj. by apply list_lookup_delete_lt.
  - intros j Hj. by apply list_lookup_delete_ge.
  - intros Hi. rewrite length_delete by by apply lookup_lt_is_Some.
    destruct (images (state w)); cbn in *; lia.
  - apply delete_out_of_range.
  - unfold new_events. cbn [trace]. apply drop_app_length.
Qed.

(** X2: a PDF drop looks at its first file only: it does what a drop of
    that file alone does, and an empty drop what it does. No PDF drop,
    of whatever batch, touches the Working Image Set, the busy flag, the
    object URLs or the downloads. *)
Theorem pdf_drop_reads_first_file_only acceptedFiles w :
  onPdfDrop acceptedFiles w = onPdfDrop (take 1 acceptedFiles) w
  ∧ let w' := (onPdfDrop acceptedFiles w).2 in
    images (state w') = images (state w)
    ∧ loading (state w') = loading (state w)
    ∧ store w' = store w ∧ next_url w' = next_url w
    ∧ effect_images w' = effect_images w ∧ stale w' = stale w
    ∧ downloads w' = downloads w.
Proof.
  rewrite !onPdfDrop_run. destruct acceptedFiles as [|first rest].
  - done.
  - cbn [take]. split; [done|]. cbn [snd]. by case_decide.
Qed.

(** X3: in every world the component can reach, an image drop gives each
    accepted file the next free object URLs, in order, and after the
    action each of these URLs is live and resolves to its own file;
    provided no file was handed to [withPreview] twice, in this drop or
    before. *)
Theorem image_drop_registers_previews actions fs :
  NoDup (image_files (actions ++ [DropImages fs])) →
  let w := (run actions initial).2 in
  let w' := (act (DropImages fs) w).2 in
  let added := dropped (next_url w) fs in
  images (state w') = images (state w) ++ added
  ∧ file <$> added = List.filter isImage fs
  ∧ preview <$> added = seq (next_url w) (length added)
  ∧ next_url w' = next_url w + length added
  ∧ ∀ im, im ∈ added → store w' !! preview im = Some (FileBlob (file im)).
Proof.
  intros _. cbv zeta. destruct (reachable actions) as (w & -> & Hc & Hs1 & Hs2).
  cbn [snd]. destruct (act_DropImages_run fs w) as (evs & ->).
  cbv zeta. cbn [snd state images next_url store].
  split_and!; [done|apply dropped_files|apply dropped_previews|done|].
  intros im (i & Hi)%list_elem_of_lookup.
  rewrite dropped_lookup in Hi.
  destruct (List.filter isImage fs !! i) as [f|] eqn:Ef; [|done].
  injection Hi as <-. cbn [preview file].
  assert (i < length (dropped (next_url w) fs)) as Hlt.
  { rewrite dropped_length. by eapply lookup_lt_Some. }
  rewrite released_lookup, Hs2. case_decide as Hin.
  - apply list_elem_of_fmap in Hin as (old & Heq & Hold).
    pose proof (c_previews w Hc) as Hpre. rewrite Forall_forall in Hpre.
    specialize (Hpre old Hold). lia.
  - rewrite registered_dropped. case_decide; [|lia].
    replace (next_url w + i - next_url w) with i by lia. by rewrite Ef.
Qed.

(** X4: two image drops in a row leave the same Working Image Set, with
    the same preview URLs, and the same URL counter as one drop of the
    two batches together. *)
Theorem image_drops_compose fs gs w :
  let w1 := (run [DropImages fs; DropImages gs] w).2 in
  let w2 := (run [DropImages (fs ++ gs)] w).2 in
  state w1 = state w2 ∧ next_url w1 = next_url w2.
Proof.
  cbv zeta. unfold run. cbn [forEach]. unfold mbind, M_bind, bind.
  destruct (act_DropImages_run fs w) as (e1 & ->).
  destruct (act_DropImages_run (fs ++ gs) w) as (e2 & ->).
  cbv zeta.
  match goal with |- context [act (DropImages gs) ?w1] =>
    destruct (act_DropImages_run gs w1) as (e3 & ->) end.
  cbv zeta. cbn [snd state next_url images pdfFile loading ret].
  rewrite dropped_app, length_app, <- !app_assoc.
  split; [done|lia].
Qed.

(** ** What holds in every world the component can reach *)

(** X5: whatever the user does, in whatever order, no handler lets an
    exception escape, and once the actions are done the busy flag is
    false and the mounted effect holds the current [images] array. *)
Theorem component_never_throws_nor_stays_busy actions :
  let '(r, w) := run actions initial in
  r = Ok tt ∧ loading (state w) = false ∧ effect_images w = images (state w).
Proof.
  destruct (reachable actions) as (w & -> & Hc & _ & Hs).
  split_and!; [done|apply Hc|done].
Qed.

(** X6: object URLs are never reused: in every world reached by a run in
    which no file was handed to [withPreview] twice, the entries of the
    Working Image Set have pairwise distinct preview URLs, and every
    preview URL and every URL in the store is below the counter from
    which the next URL is taken. *)
Theorem object_urls_are_never_reused actions :
  NoDup (image_files actions) →
  let w := (run actions initial).2 in
  NoDup (preview <$> images (state w))
  ∧ Forall (λ im, preview im < next_url w) (images (state w))
  ∧ ∀ u, is_Some (store w !! u) → u < next_url w.
Proof.
  intros _. cbv zeta. destruct (reachable actions) as (w & -> & Hc & _).
  split_and!; apply Hc.
Qed.

(** X7: in every reachable world the PdfInput, when set, has the media
    type application/pdf, and every entry of the Working Image Set has a
    media type that begins with "image/". *)
Theorem inputs_keep_their_media_types actions :
  let w := (run actions initial).2 in
  (∀ pdf, pdfFile (state w) = Some pdf → type pdf = "application/pdf")
  ∧ Forall (λ im, ∃ subtype, type (file im) = String.append "image/" subtype)
      (images (state w)).
Proof.
  cbv zeta. destruct (reachable actions) as (w & -> & Hc & _).
  split; [apply Hc|].
  eapply Forall_impl; [apply (c_images w Hc)|].
  intros im Him. by apply isImage_prefix.
Qed.

(** X8: every file the component ever saves is named merged-document.pdf
    and has the media type application/pdf. *)
Theorem downloads_are_merged_pdfs actions :
  let w := (run actions initial).2 in
  Forall (λ d, d.1 = "merged-document.pdf"
               ∧ ∃ bytes, d.2 = BytesBlob bytes "application/pdf")
    (downloads w).
Proof.
  cbv zeta. destruct (reachable actions) as (w & -> & Hc & _). apply Hc.
Qed.

(** X9: unmounting a component in any reachable world revokes the
    preview URL of every entry of the Working Image Set, once each and
    in order, and none of them is in the store afterwards; the set
    itself is left as it is. *)
Theorem unmount_revokes_every_preview actions :
  let w := (run actions initial).2 in
  let '(r, w') := act Unmount w in
  r = Ok tt
  ∧ revoked (new_events w w') = preview <$> images (state w)
  ∧ (∀ im, im ∈ images (state w) → store w' !! preview im = None)
  ∧ state w' = state w.
Proof.
  cbv zeta. destruct (reachable actions) as (w & -> & _ & _ & Hs).
  cbn [snd act]. rewrite unmount_run, Hs.
  unfold new_events. cbn [trace store state]. rewrite drop_app_length.
  split_and!; [done|apply revoked_revokes| |done].
  intros im Him. rewrite released_lookup.
  case_decide as Hn; [done|]. exfalso. apply Hn.
  apply list_elem_of_fmap. eauto.
Qed.

(** X10: in every world reached by a run in which no file was handed to
    [withPreview] twice, a click on a remove button revokes the preview
    URL of every entry that was in the Working Image Set before it, and
    so does an image drop of files not dropped before: none of these
    URLs is in the store afterwards, whether its entry stays in the set
    or not. *)
Theorem changing_the_set_revokes_its_previews actions :
  NoDup (image_files actions) →
  let w := (run actions initial).2 in
  (∀ fs,
     NoDup (image_files (actions ++ [DropImages fs])) →
     let w' := (act (DropImages fs) w).2 in
     (∀ im, im ∈ images (state w) → im ∈ images (state w'))
     ∧ ∀ im, im ∈ images (state w) → store w' !! preview im = None)
  ∧ (∀ index,
       let w' := (act (ClickRemove index) w).2 in
       images (state w') = delete index (images (state w))
       ∧ ∀ im, im ∈ images (state w) → store w' !! preview im = None).
Proof.
  intros _. cbv zeta. destruct (reachable actions) as (w & -> & _ & _ & Hs).
  cbn [snd]. split.
  - intros fs _. destruct (act_DropImages_run fs w) as (evs & ->).
    cbv zeta. cbn [snd state images store]. split.
    + intros im Him. apply elem_of_app. by left.
    + intros im Him. rewrite released_lookup, Hs.
      case_decide as Hn; [done|]. exfalso. apply Hn.
      apply list_elem_of_fmap. eauto.
  - intros index. destruct (act_ClickRemove_run index w) as (evs & ->).
    cbn [snd state images store]. split; [done|].
    intros im Him. rewrite released_lookup, Hs.
    case_decide as Hn; [done|]. exfalso. apply Hn.
    apply list_elem_of_fmap. eauto.
Qed.

(** ** Further properties of the merge *)

(** X11: [handleMergePdf] leaves the PdfInput and the Working Image Set
    as they were, and the only object URL it creates, revokes or changes
    in the store is the one it takes from the counter: every other URL,
    so every preview URL handed out before, resolves as before. *)
Theorem merge_touches_only_its_own_url w :
  let w' := (handleMergePdf w).2 in
  let evs := new_events w w' in
  pdfFile (state w') = pdfFile (state w)
  ∧ images (state w') = images (state w)
  ∧ (∀ u, u ≠ next_url w → store w' !! u = store w !! u)
  ∧ (∀ u, u ∈ created evs ∨ u ∈ revoked evs → u = next_url w).
Proof.
  cbv zeta.
  destruct (pdfFile (state w)) as [pdf|] eqn:Epdf;
    [destruct (decide (images (state w) = [])) as [Hnil|Hims]|].
  1,3: rewrite handleMergePdf_refuses by auto; cbn [snd];
       rewrite new_events_refused; destruct w as [[] ?]; cbn in *;
       (split_and!; [done..|]); intros u [Hu|Hu]; by apply elem_of_nil in Hu.
  destruct (handleMergePdf_merges w pdf Epdf Hims) as (evs & Hevs & ->).
  cbn [snd]. unfold merge_result.
  destruct (merged_document pdf (images (state w))) as [d|e];
    [destruct (save_result d) as [bytes|]; [destruct (click_result _ _)|]|];
    rewrite new_events_after_merge; cbn [state pdfFile images store after_merge];
    (split_and!; [done|done| |]);
    try (intros u Hu; by rewrite ?lookup_delete_ne, ?lookup_insert_ne by done);
    read_trace Hevs; intros u [Hu|Hu];
    repeat (apply elem_of_cons in Hu as [Hu|Hu]; [done|]);
    by apply elem_of_nil in Hu.
Qed.

(** X12: the merge button is gated. A click on the disabled button
    changes nothing at all; a click on the enabled button never shows
    the "missing PDF or images" message, and leaves the button enabled
    for another merge. *)
Theorem merge_button_is_gated w :
  let '(r, w') := act ClickMerge w in
  r = Ok tt
  ∧ (mergeDisabled (state w) = true → w' = w)
  ∧ (MISSING_INPUT ∉ errors_shown (new_events w w'))
  ∧ (mergeDisabled (state w) = false → mergeDisabled (state w') = false).
Proof.
  cbn [act]. unfold mbind at 1, M_bind at 1, bind at 1, get.
  destruct (mergeDisabled (state w)) eqn:Edis.
  { cbn. split_and!; [done..| |done].
    unfold new_events. rewrite drop_all. by intros ?%elem_of_nil. }
  assert (∃ pdf, pdfFile (state w) = Some pdf ∧ images (state w) ≠ []
                 ∧ loading (state w) = false) as (pdf & Hpdf & Hims & Hidle).
  { unfold mergeDisabled in Edis.
    destruct (loading (state w)), (pdfFile (state w)) as [pdf|],
      (images (state w)); cbn in Edis; try done.
    by exists pdf. }
  unfold mbind, M_bind, bind.
  destruct (handleMergePdf_merges w pdf Hpdf Hims) as (evs & Hevs & ->).
  rewrite commit_run. split; [done|]. split; [done|].
  assert (∃ err st nx dl tr,
            merge_result w pdf evs = after_merge w err st nx dl tr
            ∧ MISSING_INPUT ∉ errors_shown tr) as
    (err & st & nx & dl & tr & -> & Htr).
  { unfold merge_result.
    destruct (merged_document pdf (images (state w))) as [d|e];
      [destruct (save_result d) as [bytes|]; [destruct (click_result _ _)|]|];
      do 5 eexists; (split; [reflexivity|]); read_trace Hevs;
      try (by intros ?%elem_of_nil);
      by intros [=]%list_elem_of_singleton. }
  cbn [stale after_merge]. split.
  - destruct (stale w); unfold new_events; cbn [trace after_merge];
      rewrite <- ?app_assoc, drop_app_length;
      rewrite ?errors_shown_app, ?errors_shown_revokes, ?app_nil_r; done.
  - intros _. unfold mergeDisabled.
    destruct (stale w); cbn [state after_merge loading pdfFile images];
      rewrite Hpdf; destruct (images (state w)); try done;
      by rewrite bool_decide_eq_true_2 by eauto.
Qed.

Lemma merged_all_unreadable doc imgs i imageFile :
  imgs !! i = Some imageFile → contents (file imageFile) = None →
  ∃ e, merged_all doc imgs = Throw e.
Proof.
  revert doc i. induction imgs as [|x xs IH]; intros doc [|i] Hi Hc; try done.
  - injection Hi as ->. cbn [merged_all]. unfold merged_one. rewrite Hc. eauto.
  - cbn [merged_all]. destruct (merged_one doc x) as [doc'|e]; [|eauto].
    by eapply IH.
Qed.

(** X13: every entry is read before its media type is looked at, so an
    entry whose bytes cannot be read fails the whole merge, also when it
    is of a type the merge would skip: the generic message is shown,
    nothing is serialised, no anchor is clicked and nothing is saved. *)
Theorem unreadable_entry_fails_the_merge w pdf i imageFile :
  pdfFile (state w) = Some pdf →
  images (state w) !! i = Some imageFile →
  contents (file imageFile) = None →
  let w' := (handleMergePdf w).2 in
  let evs := new_events w w' in
  error (state w') = Some PROCESSING_ERROR
  ∧ loading (state w') = false
  ∧ serialised evs = [] ∧ clicks evs = []
  ∧ downloads w' = downloads w.
Proof.
  intros Hpdf Hi Hc. cbv zeta.
  assert (images (state w) ≠ []) as Hims by (by intros Heq; rewrite Heq in Hi).
  destruct (handleMergePdf_merges w pdf Hpdf Hims) as (evs & Hevs & ->).
  cbn [snd]. unfold merge_result.
  assert (∃ e, merged_document pdf (images (state w)) = Throw e) as [e ->].
  { unfold merged_document. destruct (contents pdf) as [b|]; [|eauto].
    destruct (load_result b) as [doc|]; [|eauto].
    by eapply merged_all_unreadable. }
  rewrite new_events_after_merge. cbn [state error loading downloads after_merge].
  split_and!; try done; by read_trace Hevs.
Qed.

(** ** Which files a merge reads *)

Lemma mergeBody_run_reads pdf imgs w :
  ∃ evs, forallb preparing evs = true
    ∧ match merged_document pdf imgs with
      | Ok _ => reads evs = pdf :: (file <$> imgs)
      | Throw e =>
          (reads evs = [pdf]
           ∧ (contents pdf = None
              ∨ ∃ b, contents pdf = Some b ∧ load_result b = None))
          ∨ ∃ pre imageFile post,
              imgs = pre ++ imageFile :: post
              ∧ Forall embeddable pre
              ∧ failure_of imageFile e
              ∧ reads evs = pdf :: (file <$> pre ++ [imageFile])
      end
    ∧ mergeBody pdf imgs w =
      match merged_document pdf imgs with
      | Throw e => (Throw e, log (START ++ evs) (busy w))
      | Ok doc =>
          match save_result doc with
          | None => (Throw SaveError, log (START ++ evs ++ [EvSave doc]) (busy w))
          | Some bytes =>
              triggerDownload bytes (log (START ++ evs ++ [EvSave doc]) (busy w))
          end
      end.
Proof.
  unfold mergeBody, merged_document, START.
  destruct w as [a st nx ei sl dl tr], pdf as [pn pt [b|]]; cbn [contents].
  2:{ exists [EvArrayBuffer (mkFile pn pt None)].
      split_and!; [done|left; split; [done|by left]|]. exec. reflexivity. }
  destruct (load_result b) as [d0|] eqn:Ed.
  2:{ exists [EvArrayBuffer (mkFile pn pt (Some b)); EvLoad b].
      split_and!; [done|left; split; [done|right; by exists b]|].
      exec. rewrite Ed. reflexivity. }
  exec. rewrite Ed.
  match goal with |- context [for_of imgs d0 mergeImage ?w] =>
    destruct (for_of_exact imgs d0 w) as (evs & -> & Hevs & Hcase)
  end.
  exists (EvArrayBuffer (mkFile pn pt (Some b)) :: EvLoad b :: evs).
  split; [done|].
  destruct (merged_all d0 imgs) as [doc|e].
  - destruct Hcase as (_ & _ & Hreads). split; [exact (f_equal (cons _) Hreads)|].
    exec. destruct (save_result doc) as [bytes|]; rewrite <- ?app_assoc; reflexivity.
  - destruct Hcase as (pre & y & post & -> & Hpre & Hy & _ & Hreads).
    split; [|exec; reflexivity].
    right. exists pre, y, post. split_and!; [done..|].
    exact (f_equal (cons _) Hreads).
Qed.

(** X14: a merge that passes the guard reads the PDF first. If the PDF
    cannot be read or does not parse, it reads nothing else. Otherwise
    it reads the entries of the Working Image Set in insertion order,
    each once and also those it will skip, up to and including the first
    entry whose read fails or whose JPEG or PNG bytes do not decode; when
    there is no such entry it reads them all, whether or not the
    document then serialises. *)
Theorem merge_reads_each_file_once w pdf :
  pdfFile (state w) = Some pdf → images (state w) ≠ [] →
  let evs := new_events w (handleMergePdf w).2 in
  match merged_document pdf (images (state w)) with
  | Ok _ => reads evs = pdf :: (file <$> images (state w))
  | Throw e =>
      (reads evs = [pdf]
       ∧ (contents pdf = None
          ∨ ∃ b, contents pdf = Some b ∧ load_result b = None))
      ∨ ∃ pre imageFile post,
          images (state w) = pre ++ imageFile :: post
          ∧ Forall embeddable pre
          ∧ failure_of imageFile e
          ∧ reads evs = pdf :: (file <$> pre ++ [imageFile])
  end.
Proof.
  intros Hpdf Hims. cbv zeta. rewrite handleMergePdf_run, Hpdf.
  destruct (images (state w)) as [|i im] eqn:Eim; [done|]. rewrite <- Eim.
  destruct (mergeBody_run_reads pdf (images (state w)) w)
    as (evs & Hevs & Hcase & Hrun).
  assert (reads (new_events w
            (let '(r, w1) := mergeBody pdf (images (state w)) w in
             (Ok tt, settled r w1)).2) = reads evs) as ->; [|done].
  rewrite Hrun. clear Hcase Hrun.
  assert (∀ r tr st nx dl tr',
            reads tr' = [] →
            reads (new_events w
                     (settled r
                        (mkWorld (state (log tr (busy w))) st nx
                           (effect_images w) (stale w) dl
                           (trace (log tr (busy w)) ++ tr'))))
            = reads tr) as Hsettled.
  { intros r tr st nx dl tr' Hr'.
    destruct w as [[pf ims ld er] st0 nx0 ei sl dl0 t0].
    destruct r as [[]|e]; unfold new_events, settled, log, busy, with_trace,
      with_state; cbn [trace state];
      rewrite <- !app_assoc, drop_app_length, !reads_app, Hr';
      cbn; by rewrite app_nil_r. }
  assert (∀ r tr, reads (new_events w (settled r (log tr (busy w)))) = reads tr)
    as Hplain.
  { intros r tr.
    destruct w as [[pf ims ld er] st0 nx0 ei sl dl0 t0].
    destruct r as [[]|e]; unfold new_events, settled, log, busy, with_trace,
      with_state; cbn [trace state];
      rewrite <- !app_assoc, drop_app_length, !reads_app;
      cbn; by rewrite app_nil_r. }
  destruct (merged_document pdf (images (state w))) as [d|e].
  2:{ cbn [snd]. rewrite Hplain, reads_app. done. }
  destruct (save_result d) as [bytes|].
  2:{ cbn [snd]. rewrite Hplain, !reads_app. cbn. by rewrite app_nil_r. }
  rewrite triggerDownload_run. cbv zeta.
  destruct (click_result _ _); cbn [snd];
    (etransitivity; [apply (Hsettled _ (START ++ evs ++ [EvSave d])); done|]);
    rewrite !reads_app; cbn; by rewrite app_nil_r.
Qed.

End proofs.

(** * The claims at concrete inputs *)

(** C1 at a one-page PDF with a PNG and a JPEG: three pages are
    serialised, the original one first, then the PNG's, then the JPEG's. *)
Lemma C1_one_page_png_jpeg :
  serialised
    (new_events Demo.ready (@handleMergePdf Demo.lib Demo.saving Demo.ready).2)
  = [mkDoc [Demo.blank;
            @centred_page Demo.lib Demo.pngImage;
            @centred_page Demo.lib Demo.jpgImage]
           [Demo.pngImage; Demo.jpgImage]].
Proof.
  refine (proj2 (@C1_pages_appended_centred Demo.lib Demo.saving Demo.ready
                   Demo.pdf _ _)
            ["%"%byte] (mkDoc [Demo.blank] []) [Demo.pngImage; Demo.jpgImage]
            _ _ _ _).
  - reflexivity.
  - discriminate.
  - reflexivity.
  - reflexivity.
  - repeat (constructor; [eexists; reflexivity|]). constructor.
  - repeat (constructor; [eexists; split_and!; reflexivity|]). constructor.
Defined.

(** C3 at a freshly mounted component. *)
Lemma C3_fresh_component :
  let '(r, w') := @handleMergePdf Demo.lib Demo.saving initial in
  r = Ok tt
  ∧ new_events initial w' = [EvSetError (Some MISSING_INPUT)]
  ∧ state w' = mkApp None [] false (Some MISSING_INPUT)
  ∧ store w' = store initial ∧ next_url w' = next_url initial
  ∧ downloads w' = downloads initial.
Proof.
  apply (@C3_merge_refused_without_inputs Demo.lib Demo.saving initial).
  left. reflexivity.
Defined.


(** What the hypothesis of C9 leaves out: had the click on the anchor
    thrown, the save URL 2 would have stayed in the store, since
    [URL.revokeObjectURL(url)] is the last statement of the [try] block
    and not part of [finally]. *)
Lemma C9_save_url_leaks_when_click_throws :
  let w' := (@handleMergePdf Demo.lib Demo.throwing Demo.ready).2 in
  let evs := new_events Demo.ready w' in
  created evs = [2]
  ∧ clicks evs = [(2, "merged-document.pdf")]
  ∧ revoked evs = []
  ∧ store w' !! 2 = Some (BytesBlob ["%"; "%"; "%"]%byte "application/pdf")
  ∧ loading (state w') = false.
Proof. vm_compute. repeat split. Qed.

(** C8 on the code: a second image drop revokes the preview URL of the
    entry dropped first, which is still in the Working Image Set;
    unmounting then revokes it a second time; and removing one entry
    revokes the URLs of the entries that stay. *)
Theorem C8_preview_revoked_while_present :
  let w1 := (@run Demo.lib Demo.saving
               [DropImages [Demo.png]; DropImages [Demo.jpg]] initial).2 in
  let w2 := (@run Demo.lib Demo.saving
               [DropImages [Demo.png]; DropImages [Demo.jpg]; Unmount]
               initial).2 in
  let w3 := (@run Demo.lib Demo.saving
               [DropImages [Demo.png; Demo.jpg]; ClickRemove 0] initial).2 in
  (images (state w1) = [mkImageFile Demo.png 0; mkImageFile Demo.jpg 1]
   ∧ revoked (trace w1) = [0]
   ∧ store w1 !! 0 = None)
  ∧ revoked (trace w2) = [0; 0; 1]
  ∧ (images (state w3) = [mkImageFile Demo.jpg 1]
     ∧ revoked (trace w3) = [0; 1]
     ∧ store w3 !! 1 = None).
Proof. vm_compute. repeat split. Qed.

(** ** Further runs *)

(** A GIF passes the image filter of the drop, and the merge skips it:
    the one original page is serialised and delivered, with no error. *)
Example gif_is_skipped :
  let w := (@run Demo.lib Demo.saving
              [DropPdf [Demo.pdf]; DropImages [Demo.gif]; ClickMerge]
              initial).2 in
  serialised (trace w) = [mkDoc [Demo.blank] []]
  ∧ downloads w = [("merged-document.pdf", BytesBlob ["%"%byte] "application/pdf")]
  ∧ error (state w) = None.
Proof. vm_compute. repeat split. Qed.

(** A PNG whose bytes do not decode fails the merge: the generic message
    is shown, nothing is serialised or delivered, and the component is
    idle again. *)
Example broken_png_fails :
  let w := (@run Demo.lib Demo.saving
              [DropPdf [Demo.pdf]; DropImages [Demo.jpg; Demo.broken]; ClickMerge]
              initial).2 in
  serialised (trace w) = []
  ∧ downloads w = []
  ∧ state w = mkApp (Some Demo.pdf)
                    [mkImageFile Demo.jpg 0; mkImageFile Demo.broken 1]
                    false (Some PROCESSING_ERROR).
Proof. vm_compute. repeat split. Qed.

(** A text file dropped on the PDF target is refused, and dropped on the
    image target it is filtered out. *)
Example text_file_is_refused :
  let w := (@run Demo.lib Demo.saving
              [DropPdf [Demo.txt]; DropImages [Demo.txt]] initial).2 in
  errors_shown (trace w) = [INVALID_PDF]
  ∧ state w = mkApp None [] false None.
Proof. vm_compute. repeat split. Qed.

(** X13 at a set that holds a JPEG and a GIF that can no longer be read. *)
Lemma unreadable_gif_fails_the_merge :
  let w := (@run Demo.lib Demo.saving
              [DropPdf [Demo.pdf]; DropImages [Demo.jpg; vanished]] initial).2 in
  let w' := (@handleMergePdf Demo.lib Demo.saving w).2 in
  let evs := new_events w w' in
  error (state w') = Some PROCESSING_ERROR
  ∧ loading (state w') = false
  ∧ serialised evs = [] ∧ clicks evs = []
  ∧ downloads w' = downloads w.
Proof.
  apply (@unreadable_entry_fails_the_merge Demo.lib Demo.saving _ Demo.pdf 1
           (mkImageFile vanished 1)); reflexivity.
Defined.
(** X14 at a one-page PDF with a PNG and a JPEG: three reads, in order. *)
Lemma ready_merge_reads_three_files :
  reads (new_events Demo.ready (@handleMergePdf Demo.lib Demo.saving Demo.ready).2)
  = [Demo.pdf; Demo.png; Demo.jpg].
Proof.
  exact (@merge_reads_each_file_once Demo.lib Demo.saving Demo.ready Demo.pdf
           eq_refl ltac:(discriminate)).
Defined.

(** X3 at a drop of a JPEG and a text file after a drop of a PNG. *)
Lemma jpeg_dropped_after_png :
  let w := (@run Demo.lib Demo.saving [DropImages [Demo.png]] initial).2 in
  let w' := (@act Demo.lib Demo.saving (DropImages [Demo.jpg; Demo.txt]) w).2 in
  let added := dropped (next_url w) [Demo.jpg; Demo.txt] in
  images (state w') = images (state w) ++ added
  ∧ file <$> added = List.filter isImage [Demo.jpg; Demo.txt]
  ∧ preview <$> added = seq (next_url w) (length added)
  ∧ next_url w' = next_url w + length added
  ∧ ∀ im, im ∈ added → store w' !! preview im = Some (FileBlob (file im)).
Proof.
  apply (@image_drop_registers_previews Demo.lib Demo.saving
           [DropImages [Demo.png]] [Demo.jpg; Demo.txt]).
  vm_compute.
  repeat (constructor;
          [rewrite ?not_elem_of_cons; repeat split;
           (discriminate || apply not_elem_of_nil)|]).
  constructor.
Defined.

(** X6 after two drops and a removal. *)
Lemma urls_after_drops_and_removal :
  let w := (@run Demo.lib Demo.saving
              [DropImages [Demo.png; Demo.jpg]; ClickRemove 0;
               DropImages [Demo.gif]] initial).2 in
  NoDup (preview <$> images (state w))
  ∧ Forall (λ im, preview im < next_url w) (images (state w))
  ∧ ∀ u, is_Some (store w !! u) → u < next_url w.
Proof.
  apply (@object_urls_are_never_reused Demo.lib Demo.saving
           [DropImages [Demo.png; Demo.jpg]; ClickRemove 0;
            DropImages [Demo.gif]]).
  vm_compute.
  repeat (constructor;
          [rewrite ?not_elem_of_cons; repeat split;
           (discriminate || apply not_elem_of_nil)|]).
  constructor.
Defined.

(** X10 after a drop of a PNG. *)
Lemma previews_revoked_after_png :
  let w := (@run Demo.lib Demo.saving [DropImages [Demo.png]] initial).2 in
  (∀ fs,
     NoDup (image_files ([DropImages [Demo.png]] ++ [DropImages fs])) →
     let w' := (@act Demo.lib Demo.saving (DropImages fs) w).2 in
     (∀ im, im ∈ images (state w) → im ∈ images (state w'))
     ∧ ∀ im, im ∈ images (state w) → store w' !! preview im = None)
  ∧ (∀ index,
       let w' := (@act Demo.lib Demo.saving (ClickRemove index) w).2 in
       images (state w') = delete index (images (state w))
       ∧ ∀ im, im ∈ images (state w) → store w' !! preview im = None).
Proof.
  apply (@changing_the_set_revokes_its_previews Demo.lib Demo.saving
           [DropImages [Demo.png]]).
  vm_compute. repeat constructor. apply not_elem_of_nil.
Defined.
